(** * fetch-event-source: the streaming Server-Sent-Events parser

    A shallow embedding of [src/index.ts] and the properties of its three
    stages: the line splitter [createLineReader], the field parser
    [readEventMessagePart] and the message assembler
    [createEventMessageReader].

    Conventions of the embedding.
    - A [Uint8Array] is a [list Z]; the code only ever compares elements
      with the four control characters, so no range side condition is
      needed, and every theorem holds in particular for lists of bytes.
    - JavaScript numbers used as indices ([position], [lineStart],
      [lineEnd], [fieldLength]) are [Z], with the sentinel [-1] as in the
      source.
    - An async generator over a finite source is the list of the values it
      yields, in order.  The source ([reader.read()]) is the list of the
      chunks it delivers before reporting [done]. *)

From Stdlib Require Import String Ascii ZArith List Bool Lia.
Import ListNotations.
Open Scope Z_scope.

(** ** Data *)

Module ControlChars.
Definition NewLine : Z := 10.
Definition CarriageReturn : Z := 13.
Definition Space : Z := 32.
Definition Colon : Z := 58.
End ControlChars.
Import ControlChars.

Abbreviation Uint8Array := (list Z) (only parsing).

(** [arr.length] *)
Definition len (a : Uint8Array) : Z := Z.of_nat (length a).

(** [arr[i]]: [None] is JavaScript's [undefined], read out of range. *)
Definition get (a : Uint8Array) (i : Z) : option Z :=
  if i <? 0 then None else nth_error a (Z.to_nat i).

(** [x === c] for an element read from an array and a control character. *)
Definition is_char (x : option Z) (c : Z) : bool :=
  match x with
  | Some b => b =? c
  | None => false
  end.

(** Relative index resolution of [TypedArray.prototype.subarray]. *)
Definition clamp_index (n i : Z) : Z :=
  if i <? 0 then Z.max (n + i) 0 else Z.min i n.

(** [arr.subarray(b, e)] *)
Definition subarray (a : Uint8Array) (b e : Z) : Uint8Array :=
  let b' := clamp_index (len a) b in
  let e' := clamp_index (len a) e in
  firstn (Z.to_nat (Z.max (e' - b') 0)) (skipn (Z.to_nat b') a).

(** [arr.subarray(b)] *)
Definition subarray_from (a : Uint8Array) (b : Z) : Uint8Array :=
  subarray a b (len a).

(** The object [{ line, fieldLength }] yielded by [createLineReader]. *)
Definition Line : Type := Uint8Array * Z.

(** ** The line splitter *)

(** The local variables of [createLineReader] that live across chunks. *)
Record ReaderState := mkReader {
  buffer : option Uint8Array;
  position : Z;
  fieldLength : Z;
  discardTrailingNewline : bool
}.

Definition initialReader : ReaderState :=
  {| buffer := None; position := 0; fieldLength := -1;
     discardTrailingNewline := false |}.

(** The inner [for (; position < bufLength && lineEnd === -1; ++position)]
    loop with its [switch].  The result is
    [(position, fieldLength, lineEnd, discardTrailingNewline)]. *)
Fixpoint forLoop (fuel : nat) (buf : Uint8Array) (lineStart : Z)
    (position fieldLength lineEnd : Z) (discard : bool)
    : Z * Z * Z * bool :=
  match fuel with
  | O => (position, fieldLength, lineEnd, discard)
  | S fuel' =>
    if (position <? len buf) && (lineEnd =? -1) then
      let c := get buf position in
      if is_char c Colon then
        forLoop fuel' buf lineStart (position + 1)
          (if fieldLength =? -1 then position - lineStart else fieldLength)
          lineEnd discard
      else if is_char c CarriageReturn then
        forLoop fuel' buf lineStart (position + 1) fieldLength position true
      else if is_char c NewLine then
        forLoop fuel' buf lineStart (position + 1) fieldLength position discard
      else
        forLoop fuel' buf lineStart (position + 1) fieldLength lineEnd discard
    else (position, fieldLength, lineEnd, discard)
  end.

(** The [while (position < bufLength)] loop.  It returns the lines it
    yields and [(lineStart, position, fieldLength, discardTrailingNewline)]
    as they stand when the loop is left. *)
Fixpoint whileLoop (fuel : nat) (buf : Uint8Array)
    (lineStart position fieldLength : Z) (discard : bool)
    : list Line * (Z * Z * Z * bool) :=
  match fuel with
  | O => ([], (lineStart, position, fieldLength, discard))
  | S fuel' =>
    if position <? len buf then
      let '(lineStart, position) :=
        if discard && is_char (get buf position) NewLine
        then (position + 1, position + 1)
        else (lineStart, position) in
      let discard := false in
      let '(position, fieldLength, lineEnd, discard) :=
        forLoop (Z.to_nat (len buf - position)) buf lineStart
          position fieldLength (-1) discard in
      if lineEnd =? -1 then
        ([], (lineStart, position, fieldLength, discard))
      else
        let item := (subarray buf lineStart lineEnd, fieldLength) in
        let '(rest, final) :=
          whileLoop fuel' buf position position (-1) discard in
        (item :: rest, final)
    else ([], (lineStart, position, fieldLength, discard))
  end.

(** One turn of the outer [while (!(result = await reader.read()).done)]
    loop, for the chunk [arr]. *)
Definition onChunk (st : ReaderState) (arr : Uint8Array)
    : list Line * ReaderState :=
  let '(buf, position, fieldLength) :=
    match buffer st with
    | None => (arr, 0, -1)
    | Some old => (old ++ arr, position st, fieldLength st)
    end in
  let bufLength := len buf in
  let '(lines, (lineStart, position, fieldLength, discard)) :=
    whileLoop (S (Z.to_nat (bufLength - position))) buf 0
      position fieldLength (discardTrailingNewline st) in
  let '(buffer', position) :=
    if lineStart =? bufLength then (None, position)
    else if negb (lineStart =? 0)
      then (Some (subarray_from buf lineStart), position - lineStart)
      else (Some buf, position) in
  (lines,
   {| buffer := buffer'; position := position; fieldLength := fieldLength;
      discardTrailingNewline := discard |}).

(** The chunks of the source, one after the other. *)
Fixpoint readChunks (st : ReaderState) (chunks : list Uint8Array)
    : list Line * ReaderState :=
  match chunks with
  | [] => ([], st)
  | arr :: chunks' =>
    let '(lines, st') := onChunk st arr in
    let '(rest, final) := readChunks st' chunks' in
    (lines ++ rest, final)
  end.

(** What is yielded once the source is [done]: "get anything that is still
    in the buffer". *)
Definition flushReader (st : ReaderState) : list Line :=
  match buffer st with
  | Some line => [(line, fieldLength st)]
  | None => []
  end.

Definition createLineReader (chunks : list Uint8Array) : list Line :=
  let '(lines, st) := readChunks initialReader chunks in
  lines ++ flushReader st.

(** ** Platform functions used by the field parser

    [TextDecoder] and [parseInt] belong to the JavaScript platform, not to
    the repository; they are written out here from the WHATWG Encoding
    standard and from ECMAScript.

    A JavaScript string is represented by the list of its code points.
    Strings are only ever produced by the decoder, compared with literals,
    tested for emptiness, concatenated and handed to [parseInt]; all of
    these agree on code points and on UTF-16 code units. *)

Abbreviation JSString := (list Z) (only parsing).

(** A string literal. *)
Definition str (s : string) : JSString :=
  map (fun a => Z.of_N (N_of_ascii a)) (list_ascii_of_string s).

(** [s === t] on strings *)
Fixpoint string_eqb (s t : JSString) : bool :=
  match s, t with
  | [], [] => true
  | c :: s', d :: t' => (c =? d) && string_eqb s' t'
  | _, _ => false
  end.

Definition REPLACEMENT : Z := 0xFFFD.
Definition BOM : Z := 0xFEFF.

(** State of the UTF-8 decoder: the code point under construction, the
    number of continuation bytes still needed, and the lower and upper
    boundary of the next byte. *)
Definition Utf8State : Type := Z * Z * Z * Z.

Definition utf8_idle : Utf8State := (0, 0, 0x80, 0xBF).

(** A byte read while no continuation byte is needed. *)
Definition utf8_lead (b : Z) : list Z * Utf8State :=
  if b <=? 0x7F then ([b], utf8_idle)
  else if (0xC2 <=? b) && (b <=? 0xDF) then
    ([], (Z.land b 0x1F, 1, 0x80, 0xBF))
  else if (0xE0 <=? b) && (b <=? 0xEF) then
    ([], (Z.land b 0xF, 2,
          (if b =? 0xE0 then 0xA0 else 0x80),
          (if b =? 0xED then 0x9F else 0xBF)))
  else if (0xF0 <=? b) && (b <=? 0xF4) then
    ([], (Z.land b 0x7, 3,
          (if b =? 0xF0 then 0x90 else 0x80),
          (if b =? 0xF4 then 0x8F else 0xBF)))
  else ([REPLACEMENT], utf8_idle).

(** The UTF-8 decoder with error mode "replacement". *)
Fixpoint utf8_run (st : Utf8State) (bs : list Z) : JSString :=
  let '(cp, needed, lower, upper) := st in
  match bs with
  | [] => if needed =? 0 then [] else [REPLACEMENT]
  | b :: bs' =>
    if needed =? 0 then
      let '(out, st') := utf8_lead b in out ++ utf8_run st' bs'
    else if (lower <=? b) && (b <=? upper) then
      let cp' := Z.lor (Z.shiftl cp 6) (Z.land b 0x3F) in
      if needed =? 1 then cp' :: utf8_run utf8_idle bs'
      else utf8_run (cp', needed - 1, 0x80, 0xBF) bs'
    else
      let '(out, st') := utf8_lead b in
      REPLACEMENT :: out ++ utf8_run st' bs'
  end.

(** [new TextDecoder().decode(arr)]: UTF-8, not fatal, and a leading byte
    order mark is removed ([ignoreBOM] is false). *)
Definition decode (arr : Uint8Array) : JSString :=
  match utf8_run utf8_idle arr with
  | c :: s => if c =? BOM then s else c :: s
  | [] => []
  end.

(** [StrWhiteSpaceChar] of ECMAScript: white space and line terminators. *)
Definition isStrWhiteSpaceChar (c : Z) : bool :=
  existsb (Z.eqb c)
    [0x9; 0xA; 0xB; 0xC; 0xD; 0x20; 0xA0; 0x1680; 0x2028; 0x2029;
     0x202F; 0x205F; 0x3000; 0xFEFF]
  || ((0x2000 <=? c) && (c <=? 0x200A)).

Fixpoint trimStart (s : JSString) : JSString :=
  match s with
  | c :: s' => if isStrWhiteSpaceChar c then trimStart s' else s
  | [] => []
  end.

Definition isDigit (c : Z) : bool := (48 <=? c) && (c <=? 57).

(** The value of the longest prefix of decimal digits, read after [acc]. *)
Fixpoint parseDigits (acc : Z) (s : JSString) : Z :=
  match s with
  | c :: s' => if isDigit c then parseDigits (acc * 10 + (c - 48)) s' else acc
  | [] => acc
  end.

(** The integer that [parseInt(s, 10)] reads, before it is made a Number:
    [None] when there is no digit to read (the result is [NaN]), and the
    sign times the value of the digits otherwise. *)
Definition parseInt10 (s : JSString) : option Z :=
  let s1 := trimStart s in
  let '(sign, s2) :=
    match s1 with
    | c :: s' =>
      if c =? 45 then (-1, s') else if c =? 43 then (1, s') else (1, s1)
    | [] => (1, s1)
    end in
  match s2 with
  | c :: _ => if isDigit c then Some (sign * parseDigits 0 s2) else None
  | [] => None
  end.

(** The Numbers [parseInt] can return: [NaN], an integer that a double
    holds exactly, negative zero, and the two infinities. *)
Inductive JSNumber :=
| NumNaN
| NumInt (z : Z)
| NumNegZero
| NumInfinity (negative : bool).

Coercion NumInt : Z >-> JSNumber.

(** [isNaN(n)] *)
Definition isNaN (n : JSNumber) : bool :=
  match n with
  | NumNaN => true
  | _ => false
  end.

(** A positive integer rounded to the nearest integer with 53 significant
    bits, ties to even: the value of the double nearest to it, as long as
    that is finite. *)
Definition roundTo53 (n : Z) : Z :=
  let k := Z.log2 n + 1 in
  if k <=? 53 then n
  else
    let e := k - 53 in
    let q := Z.shiftr n e in
    let r := n - Z.shiftl q e in
    let half := Z.shiftl 1 (e - 1) in
    let q' := if (half <? r) || ((r =? half) && Z.odd q) then q + 1 else q in
    Z.shiftl q' e.

(** The Number value of a non-zero integer: rounded to a double, infinite
    from 2^1024 on. *)
Definition numberOfInteger (z : Z) : JSNumber :=
  let m := roundTo53 (Z.abs z) in
  if 2 ^ 1024 <=? m then NumInfinity (z <? 0)
  else NumInt (if z <? 0 then - m else m).

(** The sign [parseInt] reads: whether the first character after the
    white space is a minus. *)
Definition hasMinusSign (s : JSString) : bool :=
  match trimStart s with
  | c :: _ => c =? 45
  | [] => false
  end.

(** [parseInt(s, 10)]: the integer read, as a Number.  Zero keeps the sign
    that was read; the conversion is correctly rounded. *)
Definition parseInt (s : JSString) : JSNumber :=
  match parseInt10 s with
  | None => NumNaN
  | Some z =>
    if z =? 0 then (if hasMinusSign s then NumNegZero else NumInt 0)
    else numberOfInteger z
  end.

(** ** The field parser *)

Inductive EventSourceMessagePart :=
| PartEmpty
| PartData (value : JSString)
| PartEvent (value : JSString)
| PartId (value : JSString)
| PartRetry (value : JSNumber).

(** [const field = decoder.decode(line.subarray(0, fieldLength))] *)
Definition fieldOf (line : Uint8Array) (fieldLength : Z) : JSString :=
  decode (subarray line 0 fieldLength).

(** [fieldLength + (line[fieldLength + 1] === ControlChars.Space ? 2 : 1)] *)
Definition valueOffsetOf (line : Uint8Array) (fieldLength : Z) : Z :=
  fieldLength + (if is_char (get line (fieldLength + 1)) Space then 2 else 1).

(** [const value = decoder.decode(line.subarray(valueOffset))] *)
Definition valueOf (line : Uint8Array) (fieldLength : Z) : JSString :=
  decode (subarray_from line (valueOffsetOf line fieldLength)).

(** The [switch (field)] of [readEventMessagePart]. *)
Definition switchField (field value : JSString) : list EventSourceMessagePart :=
  if string_eqb field (str "data") then [PartData value]
  else if string_eqb field (str "event") then [PartEvent value]
  else if string_eqb field (str "id") then [PartId value]
  else if string_eqb field (str "retry") then
    let retry := parseInt value in
    if negb (isNaN retry) then [PartRetry retry] else []
  else [].

(** The body of the [for await] loop of [readEventMessagePart]: the parts
    yielded for one line. *)
Definition partsOfLine (l : Line) : list EventSourceMessagePart :=
  let '(line, fieldLength) := l in
  if len line =? 0 then [PartEmpty]
  else if fieldLength >? 0 then
    switchField (fieldOf line fieldLength) (valueOf line fieldLength)
  else [].

Definition readEventMessagePart (chunks : list Uint8Array)
    : list EventSourceMessagePart :=
  flat_map partsOfLine (createLineReader chunks).

(** ** The message assembler *)

Record EventSourceMessage := mkMessage {
  id : JSString;
  event : JSString;
  data : JSString;
  retry : option JSNumber
}.

(** The object literal [{ data: "", event: "", id: "", retry: undefined }]. *)
Definition freshMessage : EventSourceMessage :=
  {| id := []; event := []; data := []; retry := None |}.

(** Message objects live in a store and are referred to by address: the
    generator yields the object bound to [message] itself, not a copy. *)
Definition Store := list EventSourceMessage.

Definition deref (h : Store) (a : nat) : EventSourceMessage :=
  nth a h freshMessage.

Fixpoint update (h : Store) (a : nat)
    (f : EventSourceMessage -> EventSourceMessage) : Store :=
  match h, a with
  | [], _ => []
  | m :: h', O => f m :: h'
  | m :: h', S a' => m :: update h' a' f
  end.

(** The store and the variable [message] of [createEventMessageReader]. *)
Record Assembler := mkAssembler {
  store : Store;
  message : nat
}.

(** [let message = { ... }] in an empty store. *)
Definition initialAssembler : Assembler :=
  {| store := [freshMessage]; message := 0%nat |}.

(** [message.data ? message.data + "\n" + part.value : part.value] *)
Definition appendData (d v : JSString) : JSString :=
  match d with
  | [] => v
  | _ :: _ => d ++ [NewLine] ++ v
  end.

(** The [switch (part.type)]: the address yielded, if any, and the state
    after the part. *)
Definition onPart (st : Assembler) (part : EventSourceMessagePart)
    : option nat * Assembler :=
  let h := store st in
  let a := message st in
  match part with
  | PartEmpty =>
    (Some a, {| store := h ++ [freshMessage]; message := length h |})
  | PartData v =>
    (None, {| store := update h a (fun m =>
                {| id := id m; event := event m;
                   data := appendData (data m) v; retry := retry m |});
              message := a |})
  | PartEvent v =>
    (None, {| store := update h a (fun m =>
                {| id := id m; event := v; data := data m;
                   retry := retry m |});
              message := a |})
  | PartId v =>
    (None, {| store := update h a (fun m =>
                {| id := v; event := event m; data := data m;
                   retry := retry m |});
              message := a |})
  | PartRetry n =>
    (None, {| store := update h a (fun m =>
                {| id := id m; event := event m; data := data m;
                   retry := Some n |});
              message := a |})
  end.

(** A yielded object as the consumer receives it: its address and what it
    holds at that moment. *)
Definition Yielded : Type := nat * EventSourceMessage.

(** The [for await (const part of ...)] loop. *)
Fixpoint onParts (st : Assembler) (parts : list EventSourceMessagePart)
    : list Yielded * Assembler :=
  match parts with
  | [] => ([], st)
  | part :: parts' =>
    let '(y, st') := onPart st part in
    let '(ys, final) := onParts st' parts' in
    (match y with
     | Some a => (a, deref (store st) a) :: ys
     | None => ys
     end, final)
  end.

(** The whole generator body over a given sequence of parts, ending with
    the last [yield message]. *)
Definition assemble (parts : list EventSourceMessagePart)
    : list Yielded * Assembler :=
  let '(ys, st) := onParts initialAssembler parts in
  (ys ++ [(message st, deref (store st) (message st))], st).

Definition createEventMessageReader (chunks : list Uint8Array)
    : list EventSourceMessage :=
  map snd (fst (assemble (readEventMessagePart chunks))).

(** A new line, to write the inputs of examples. *)
Definition NL : list Z := [NewLine].

(** ** Reference definitions for the statements

    These follow the words of the specification, not the code: a logical
    line is a run of bytes between terminators, read one byte at a time,
    and its separator offset is the index of its first colon. *)

(** Index of the first colon of a line, [-1] when it has none. *)
Fixpoint firstColon (l : list Z) : Z :=
  match l with
  | [] => -1
  | b :: l' =>
    if b =? Colon then 0
    else let r := firstColon l' in if r =? -1 then -1 else r + 1
  end.

Definition isTerminator (b : Z) : bool :=
  (b =? CarriageReturn) || (b =? NewLine).

(** The splitter as a machine over single bytes: [pending] is the line
    read so far, [discard] tells that the previous byte was a carriage
    return. *)
Fixpoint splitBytes (pending : list Z) (discard : bool) (bs : list Z)
    : list Line * (list Z * bool) :=
  match bs with
  | [] => ([], (pending, discard))
  | b :: bs' =>
    if discard && (b =? NewLine) then splitBytes pending false bs'
    else if isTerminator b then
      let '(rest, final) := splitBytes [] (b =? CarriageReturn) bs' in
      ((pending, firstColon pending) :: rest, final)
    else splitBytes (pending ++ [b]) false bs'
  end.

(** The lines of a whole stream: the terminated ones, then the bytes left
    over, if any. *)
Definition logicalLines (bs : list Z) : list Line :=
  let '(lines, (pending, _)) := splitBytes [] false bs in
  lines ++ match pending with
           | [] => []
           | _ :: _ => [(pending, firstColon pending)]
           end.

(** The number of line terminators of a stream, a carriage return with the
    new line after it counting once. *)
Fixpoint countTerminators (discard : bool) (bs : list Z) : nat :=
  match bs with
  | [] => 0
  | b :: bs' =>
    if discard && (b =? NewLine) then countTerminators false bs'
    else if isTerminator b then S (countTerminators (b =? CarriageReturn) bs')
    else countTerminators false bs'
  end.

(** The last byte of a stream is a carriage return. *)
Definition endsWithCR (bs : list Z) : bool :=
  match rev bs with
  | b :: _ => b =? CarriageReturn
  | [] => false
  end.

(** The last byte of a stream is a line terminator. *)
Definition endsWithTerminator (bs : list Z) : bool :=
  match rev bs with
  | b :: _ => isTerminator b
  | [] => false
  end.

(** The first byte of a stream is a new line. *)
Definition startsWithLF (bs : list Z) : bool :=
  match bs with
  | b :: _ => b =? NewLine
  | [] => false
  end.

(** Cuts a byte sequence at its first terminator:
    [(before, Some (t, after))], or [(bs, None)] when it has none. *)
Fixpoint breakLine (bs : list Z) : list Z * option (Z * list Z) :=
  match bs with
  | [] => ([], None)
  | b :: bs' =>
    if isTerminator b then ([], Some (b, bs'))
    else let '(before, r) := breakLine bs' in (b :: before, r)
  end.

(** What the representation of the reader's state stands for: the pending
    line and the carriage-return flag of the byte machine. *)
Definition Rep (st : ReaderState) (pending : list Z) (discard : bool) : Prop :=
  discardTrailingNewline st = discard /\
  match pending with
  | [] => buffer st = None
  | _ :: _ =>
    buffer st = Some pending /\ position st = len pending /\
    fieldLength st = firstColon pending /\ discard = false
  end.

(** The object bound to the variable [message]. *)
Definition currentMessage (st : Assembler) : EventSourceMessage :=
  deref (store st) (message st).

(** The state of the assembler after a sequence of parts. *)
Definition afterParts (parts : list EventSourceMessagePart) : Assembler :=
  snd (onParts initialAssembler parts).

(** The message assembler on values, as the specification words its state
    machine: a part other than [Empty] changes one field of the message in
    progress. *)
Definition applyPart (m : EventSourceMessage) (part : EventSourceMessagePart)
    : EventSourceMessage :=
  match part with
  | PartEmpty => freshMessage
  | PartData v =>
    {| id := id m; event := event m; data := appendData (data m) v;
       retry := retry m |}
  | PartEvent v =>
    {| id := id m; event := v; data := data m; retry := retry m |}
  | PartId v =>
    {| id := v; event := event m; data := data m; retry := retry m |}
  | PartRetry n =>
    {| id := id m; event := event m; data := data m; retry := Some n |}
  end.

(** The messages emitted from a message in progress [m]: one at each
    [Empty], and the one in progress at the end. *)
Fixpoint messagesOf (m : EventSourceMessage)
    (parts : list EventSourceMessagePart) : list EventSourceMessage :=
  match parts with
  | [] => [m]
  | PartEmpty :: parts' => m :: messagesOf freshMessage parts'
  | part :: parts' => messagesOf (applyPart m part) parts'
  end.

Definition isPartEmpty (part : EventSourceMessagePart) : bool :=
  match part with
  | PartEmpty => true
  | _ => false
  end.

(** The number of [Empty] parts of a sequence. *)
Definition countEmpty (parts : list EventSourceMessagePart) : nat :=
  length (filter isPartEmpty parts).

(** Data values joined with new lines, the empty values at the front left
    out. *)
Fixpoint joinData (vs : list JSString) : JSString :=
  match vs with
  | [] => []
  | [] :: vs' => joinData vs'
  | v :: vs' => v ++ concat (map (fun w => NewLine :: w) vs')
  end.

(** A field name that is none of the four the parser knows. *)
Definition unrecognized (field : JSString) : Prop :=
  field <> str "data" /\ field <> str "event" /\
  field <> str "id" /\ field <> str "retry".

(** A valid state: [message] is the address of the last object of the
    store. *)
Definition validAssembler (st : Assembler) : Prop :=
  length (store st) = S (message st).

(** The value part of a line: what follows the colon, less one space. *)
Definition stripSpace (value : list Z) : list Z :=
  match value with
  | b :: value' => if b =? Space then value' else value
  | [] => []
  end.

(** ** The type guards of the parts *)

(** [part.type], the tag of the union [EventSourceMessagePart]. *)
Definition partType (part : EventSourceMessagePart) : JSString :=
  match part with
  | PartEmpty => str "empty"
  | PartData _ => str "data"
  | PartEvent _ => str "event"
  | PartId _ => str "id"
  | PartRetry _ => str "retry"
  end.

Definition isEventSourceMessagePartEmpty (value : EventSourceMessagePart)
    : bool :=
  string_eqb (partType value) (str "empty").

Definition isEventSourceMessagePartData (value : EventSourceMessagePart)
    : bool :=
  string_eqb (partType value) (str "data").

Definition isEventSourceMessagePartEvent (value : EventSourceMessagePart)
    : bool :=
  string_eqb (partType value) (str "event").

Definition isEventSourceMessagePartId (value : EventSourceMessagePart)
    : bool :=
  string_eqb (partType value) (str "id").

Definition isEventSourceMessagePartRetry (value : EventSourceMessagePart)
    : bool :=
  string_eqb (partType value) (str "retry").

(** ** Further reference definitions *)

(** A byte sequence without carriage return and new line. *)
Definition terminatorFree (l : list Z) : Prop :=
  Forall (fun b => isTerminator b = false) l.

(** A stream with its terminator bytes taken out. *)
Definition removeTerminators (bs : list Z) : list Z :=
  filter (fun b => negb (isTerminator b)) bs.

(** The three ways to end a line on the wire. *)
Inductive Terminator := TermLF | TermCR | TermCRLF.

Definition terminatorBytes (t : Terminator) : list Z :=
  match t with
  | TermLF => [NewLine]
  | TermCR => [CarriageReturn]
  | TermCRLF => [CarriageReturn; NewLine]
  end.

Definition isTermCR (t : Terminator) : bool :=
  match t with
  | TermCR => true
  | _ => false
  end.

Definition isTermLF (t : Terminator) : bool :=
  match t with
  | TermLF => true
  | _ => false
  end.

Definition isNil (l : list Z) : bool :=
  match l with
  | [] => true
  | _ :: _ => false
  end.

(** Lines written to the wire, each with the terminator chosen for it. *)
Fixpoint serializeLines (ls : list (list Z * Terminator)) : list Z :=
  match ls with
  | [] => []
  | (l, t) :: ls' => l ++ terminatorBytes t ++ serializeLines ls'
  end.

(** No line ended by a lone carriage return is followed by an empty line
    ended by a new line: written out, the two would read as one line ended
    by the pair.  [prevCR] tells how the line before ended. *)
Fixpoint unambiguous (prevCR : bool) (ls : list (list Z * Terminator))
    : bool :=
  match ls with
  | [] => true
  | (l, t) :: ls' =>
    negb (prevCR && isNil l && isTermLF t) && unambiguous (isTermCR t) ls'
  end.

(** A line as the splitter reports it. *)
Definition reported (l : list Z) : Line := (l, firstColon l).

(** The number of zero-length lines among yielded lines. *)
Definition countEmptyLines (lines : list Line) : nat :=
  length (filter (fun l => isNil (fst l)) lines).

(** Bytes of the ASCII range. *)
Definition isAscii (l : list Z) : Prop :=
  Forall (fun b => 0 <= b <= 127) l.

(** The last value of the parts selected by [sel], [default] when there is
    none. *)
Definition lastValue {A : Type} (sel : EventSourceMessagePart -> option A)
    (default : A) (parts : list EventSourceMessagePart) : A :=
  match flat_map (fun p => match sel p with Some v => [v] | None => [] end)
          (rev parts) with
  | v :: _ => v
  | [] => default
  end.

Definition selId (p : EventSourceMessagePart) : option JSString :=
  match p with PartId v => Some v | _ => None end.

Definition selEvent (p : EventSourceMessagePart) : option JSString :=
  match p with PartEvent v => Some v | _ => None end.

Definition selRetry (p : EventSourceMessagePart)
    : option (option JSNumber) :=
  match p with PartRetry n => Some (Some n) | _ => None end.

(** The values of the [Data] parts, in order. *)
Definition dataValues (parts : list EventSourceMessagePart)
    : list JSString :=
  flat_map (fun p => match p with PartData v => [v] | _ => [] end) parts.

(** The message a block of parts without [Empty] stands for: the last id,
    event and retry, and the data values joined. *)
Definition blockMessage (parts : list EventSourceMessagePart)
    : EventSourceMessage :=
  {| id := lastValue selId [] parts;
     event := lastValue selEvent [] parts;
     data := joinData (dataValues parts);
     retry := lastValue selRetry None parts |}.

(** One event on the wire: an id line, an event line, the data lines and
    the blank line. *)
Definition serializeMessage (i e : list Z) (ds : list (list Z)) : list Z :=
  str "id: " ++ i ++ NL ++ str "event: " ++ e ++ NL ++
  concat (map (fun d => str "data: " ++ d ++ NL) ds) ++ NL.

(** The UTF-8 encoding of the byte order mark. *)
Definition utf8BOM : list Z := [0xEF; 0xBB; 0xBF].

(** ** Arrays *)

Lemma len_app (a b : Uint8Array) : len (a ++ b) = len a + len b.
Proof. unfold len. rewrite length_app. lia. Qed.

Lemma len_nonneg (a : Uint8Array) : 0 <= len a.
Proof. unfold len. lia. Qed.

Lemma len_cons (b : Z) (a : Uint8Array) : len (b :: a) = 1 + len a.
Proof. unfold len. simpl length. lia. Qed.

Lemma len_nil : len [] = 0.
Proof. reflexivity. Qed.

Lemma len_zero (a : Uint8Array) : len a = 0 -> a = [].
Proof. destruct a; [reflexivity | rewrite len_cons; pose proof (len_nonneg a); lia]. Qed.

Lemma get_middle (a c : Uint8Array) (b : Z) :
  get (a ++ b :: c) (len a) = Some b.
Proof.
  unfold get, len.
  destruct (Z.ltb_spec (Z.of_nat (length a)) 0); [lia|].
  rewrite Nat2Z.id, nth_error_app2 by lia.
  now rewrite Nat.sub_diag.
Qed.

Lemma get_outside (a : Uint8Array) (i : Z) : len a <= i -> get a i = None.
Proof.
  unfold get, len. intros H.
  destruct (Z.ltb_spec i 0); [reflexivity|].
  apply nth_error_None. lia.
Qed.

Lemma subarray_middle (a b c : Uint8Array) :
  subarray (a ++ b ++ c) (len a) (len a + len b) = b.
Proof.
  unfold subarray, clamp_index. rewrite !len_app.
  pose proof (len_nonneg a). pose proof (len_nonneg b).
  pose proof (len_nonneg c).
  destruct (Z.ltb_spec (len a) 0); [lia|].
  destruct (Z.ltb_spec (len a + len b) 0); [lia|].
  rewrite !Z.min_l by lia.
  replace (Z.max (len a + len b - len a) 0) with (len b) by lia.
  unfold len. rewrite !Nat2Z.id.
  rewrite skipn_app, skipn_all, Nat.sub_diag. simpl.
  rewrite firstn_app, firstn_all, Nat.sub_diag. simpl.
  apply app_nil_r.
Qed.

Lemma subarray_from_suffix (a b : Uint8Array) :
  subarray_from (a ++ b) (len a) = b.
Proof.
  unfold subarray_from. rewrite len_app.
  pose proof (subarray_middle a b []) as H.
  now rewrite app_nil_r in H.
Qed.

Lemma subarray_prefix (a b : Uint8Array) :
  subarray (a ++ b) 0 (len a) = a.
Proof. apply (subarray_middle [] a b). Qed.

(** ** The first colon *)

Lemma firstColon_bounds (l : list Z) : -1 <= firstColon l < len l \/ (firstColon l = -1 /\ l = []).
Proof.
  induction l as [|b l IH]; [now right|]. left.
  simpl. rewrite len_cons. pose proof (len_nonneg l).
  destruct (b =? Colon); [lia|].
  destruct (Z.eqb_spec (firstColon l) (-1)); [lia|].
  destruct IH as [IH|[IH _]]; lia.
Qed.

Lemma firstColon_ge (l : list Z) : -1 <= firstColon l.
Proof. destruct (firstColon_bounds l) as [H|[H _]]; lia. Qed.

Lemma firstColon_snoc (l : list Z) (b : Z) :
  firstColon (l ++ [b]) =
  if firstColon l =? -1 then (if b =? Colon then len l else -1)
  else firstColon l.
Proof.
  induction l as [|c l IH].
  - simpl. destruct (b =? Colon); reflexivity.
  - rewrite len_cons. cbn [app firstColon]. cbv zeta.
    destruct (c =? Colon); [reflexivity|].
    rewrite IH. pose proof (firstColon_ge l). pose proof (len_nonneg l).
    destruct (firstColon l =? -1) eqn:E.
    + cbn [Z.eqb Pos.eqb]. destruct (b =? Colon).
      * destruct (Z.eqb_spec (len l) (-1)); lia.
      * reflexivity.
    + apply Z.eqb_neq in E. rewrite (proj2 (Z.eqb_neq _ _) E).
      destruct (Z.eqb_spec (firstColon l + 1) (-1)); [lia|reflexivity].
Qed.

(** ** The inner loop *)

(** Equality of the tuples of loop variables, component by component. *)
Ltac tuple_eq :=
  repeat match goal with
         | |- (_, _) = (_, _) => apply f_equal2
         end;
  try reflexivity; try lia.

Lemma forLoop_stop fuel buf ls pos fl lineEnd d :
  lineEnd <> -1 ->
  forLoop fuel buf ls pos fl lineEnd d = (pos, fl, lineEnd, d).
Proof.
  intros H. destruct fuel; simpl; [reflexivity|].
  destruct (Z.eqb_spec lineEnd (-1)); [contradiction|].
  now rewrite andb_false_r.
Qed.

(** From a line start, the loop stops at the first terminator, or at the
    end of the buffer when there is none; enough fuel is the number of
    bytes not yet read. *)
Lemma forLoop_spec rest : forall fuel done pend,
  (length rest <= fuel)%nat ->
  forLoop fuel (done ++ pend ++ rest) (len done) (len done + len pend)
    (firstColon pend) (-1) false =
  match breakLine rest with
  | (before, None) =>
    (len done + len pend + len rest, firstColon (pend ++ rest), -1, false)
  | (before, Some (t, after)) =>
    (len done + len pend + len before + 1, firstColon (pend ++ before),
     len done + len pend + len before, t =? CarriageReturn)
  end.
Proof.
  induction rest as [|b rest IH]; intros fuel done pend Hfuel.
  - simpl breakLine. rewrite !app_nil_r, len_nil, Z.add_0_r.
    destruct fuel; simpl; [reflexivity|].
    rewrite len_app. destruct (Z.ltb_spec (len done + len pend) (len done + len pend)); [lia|].
    reflexivity.
  - destruct fuel as [|fuel]; [simpl in Hfuel; lia|].
    simpl in Hfuel. apply le_S_n in Hfuel.
    pose proof (len_nonneg done) as Hd. pose proof (len_nonneg pend) as Hp.
    pose proof (len_nonneg rest) as Hr.
    assert (Hget : get (done ++ pend ++ b :: rest) (len done + len pend) = Some b).
    { rewrite app_assoc, <- len_app. apply get_middle. }
    assert (Hbuf : done ++ pend ++ b :: rest = done ++ (pend ++ [b]) ++ rest).
    { now rewrite <- (app_assoc pend). }
    assert (Hpos : len done + len pend + 1 = len done + len (pend ++ [b])).
    { rewrite len_app, len_cons, len_nil. lia. }
    cbn [forLoop]. rewrite Hget.
    rewrite !len_app, len_cons.
    destruct (Z.ltb_spec (len done + len pend) (len done + (len pend + (1 + len rest)))); [|lia].
    cbn [andb Z.eqb Pos.eqb is_char].
    specialize (IH fuel done (pend ++ [b]) Hfuel).
    rewrite <- Hbuf, <- Hpos, firstColon_snoc in IH.
    cbn [breakLine]. unfold isTerminator.
    destruct (Z.eqb_spec b Colon) as [EC|EC].
    + subst b. cbn [Z.eqb Pos.eqb orb Colon CarriageReturn NewLine].
      replace (len done + len pend - len done) with (len pend) by lia.
      cbn [Z.eqb Pos.eqb Colon] in IH.
      rewrite IH. destruct (breakLine rest) as [before [[t after]|]].
      * rewrite len_cons, <- !app_assoc. simpl app.
        tuple_eq.
      * rewrite <- !app_assoc. simpl app. tuple_eq.
    + destruct (Z.eqb_spec b CarriageReturn) as [ER|ER].
      * cbn [orb]. rewrite forLoop_stop by lia.
        rewrite len_nil, app_nil_r. tuple_eq.
      * destruct (Z.eqb_spec b NewLine) as [EN|EN].
        -- cbn [orb]. rewrite forLoop_stop by lia.
           rewrite len_nil, app_nil_r. tuple_eq.
        -- cbn [orb].
           replace (if firstColon pend =? -1 then -1 else firstColon pend)
             with (firstColon pend) in IH
             by (destruct (Z.eqb_spec (firstColon pend) (-1)); congruence).
           rewrite IH. destruct (breakLine rest) as [before [[t after]|]].
           ++ rewrite len_cons, <- !app_assoc. simpl app.
              tuple_eq.
           ++ rewrite <- !app_assoc. simpl app. tuple_eq.
Qed.

(** ** The byte machine *)

Lemma breakLine_eq (bs : list Z) :
  match breakLine bs with
  | (before, Some (t, after)) =>
    bs = before ++ t :: after /\ isTerminator t = true
  | (before, None) => bs = before
  end.
Proof.
  induction bs as [|b bs IH]; simpl; [reflexivity|].
  destruct (isTerminator b) eqn:E; [now split|].
  destruct (breakLine bs) as [before [[t after]|]].
  - destruct IH as [-> Ht]. now split.
  - now subst.
Qed.

Lemma splitBytes_break (rest : list Z) : forall pend,
  splitBytes pend false rest =
  match breakLine rest with
  | (before, Some (t, after)) =>
    let '(out, final) := splitBytes [] (t =? CarriageReturn) after in
    ((pend ++ before, firstColon (pend ++ before)) :: out, final)
  | (before, None) => ([], (pend ++ rest, false))
  end.
Proof.
  induction rest as [|b rest IH]; intros pend.
  - simpl. now rewrite app_nil_r.
  - cbn [splitBytes breakLine andb]. destruct (isTerminator b).
    + now rewrite app_nil_r.
    + rewrite IH. destruct (breakLine rest) as [before [[t after]|]];
        now rewrite <- !app_assoc.
Qed.

(** The flag is only ever set while the pending line is empty. *)
Lemma splitBytes_discard (bs : list Z) : forall pend d,
  (d = true -> pend = []) ->
  let '(_, (pend', d')) := splitBytes pend d bs in d' = true -> pend' = [].
Proof.
  induction bs as [|b bs IH]; intros pend d H; simpl; [exact H|].
  destruct (d && (b =? NewLine)) eqn:E.
  - apply IH. discriminate.
  - destruct (isTerminator b).
    + specialize (IH [] (b =? CarriageReturn) (fun _ => eq_refl)).
      destruct (splitBytes [] (b =? CarriageReturn) bs) as [out [p' d']].
      exact IH.
    + apply IH. discriminate.
Qed.

Lemma splitBytes_app (a : list Z) : forall b pend d,
  splitBytes pend d (a ++ b) =
  let '(out1, (pend1, d1)) := splitBytes pend d a in
  let '(out2, final) := splitBytes pend1 d1 b in
  (out1 ++ out2, final).
Proof.
  induction a as [|x a IH]; intros b pend d.
  - simpl. now destruct (splitBytes pend d b).
  - cbn [app splitBytes]. destruct (d && (x =? NewLine)).
    + apply IH.
    + destruct (isTerminator x).
      * rewrite IH.
        destruct (splitBytes [] (x =? CarriageReturn) a) as [o1 [p1 d1]].
        now destruct (splitBytes p1 d1 b).
      * apply IH.
Qed.

(** ** The loop over one buffer *)

(** With [done] the bytes before [lineStart], [pend] the bytes between
    [lineStart] and [position] and [rest] the bytes from [position] on,
    the loop yields what the byte machine yields on [rest], and leaves
    [lineStart] at the start of the line that is still pending. *)
Lemma whileLoop_spec fuel : forall done pend rest d,
  (length rest <= fuel)%nat ->
  (d = true -> pend = []) ->
  let '(out, (pend', d')) := splitBytes pend d rest in
  exists done',
    done ++ pend ++ rest = done' ++ pend' /\
    whileLoop fuel (done ++ pend ++ rest) (len done) (len done + len pend)
      (firstColon pend) d =
    (out, (len done', len (done ++ pend ++ rest), firstColon pend', d')).
Proof.
  induction fuel as [|fuel IH]; intros done pend rest d Hfuel Hd.
  - destruct rest; [|simpl in Hfuel; lia].
    simpl. exists done. rewrite app_nil_r. split; [reflexivity|].
    rewrite len_app. reflexivity.
  - destruct rest as [|b rest].
    + simpl splitBytes. exists done. rewrite app_nil_r.
      split; [reflexivity|].
      cbn [whileLoop]. rewrite len_app.
      destruct (Z.ltb_spec (len done + len pend) (len done + len pend)); [lia|].
      reflexivity.
    + pose proof (len_nonneg done) as Hd0. pose proof (len_nonneg pend) as Hp0.
      pose proof (len_nonneg rest) as Hr0.
      assert (Hget : get (done ++ pend ++ b :: rest) (len done + len pend) = Some b).
      { rewrite app_assoc, <- len_app. apply get_middle. }
      assert (Hlen : len (done ++ pend ++ b :: rest) = len done + len pend + 1 + len rest).
      { rewrite !len_app, len_cons. lia. }
      (* the state after the test of [discardTrailingNewline] *)
      assert (exists done1 pend1 rest1,
        done ++ pend ++ b :: rest = done1 ++ pend1 ++ rest1 /\
        (if d && is_char (get (done ++ pend ++ b :: rest) (len done + len pend)) NewLine
         then (len done + len pend + 1, len done + len pend + 1)
         else (len done, len done + len pend)) =
        (len done1, len done1 + len pend1) /\
        firstColon pend = firstColon pend1 /\
        splitBytes pend d (b :: rest) = splitBytes pend1 false rest1 /\
        (length rest1 <= S (length rest))%nat) as (done1 & pend1 & rest1 & Hbuf & Hsel & Hfc & Hsplit & Hl1).
      { rewrite Hget. cbn [is_char splitBytes].
        destruct (d && (b =? NewLine)) eqn:E.
        - apply andb_prop in E. destruct E as [Ed Eb].
          rewrite (Hd Ed). exists (done ++ [b]), [], rest.
          rewrite len_app, len_cons, !len_nil.
          split; [simpl; now rewrite <- app_assoc|].
          split; [tuple_eq|]. split; [reflexivity|]. split; [reflexivity|lia].
        - exists done, pend, (b :: rest).
          split; [reflexivity|]. split; [reflexivity|]. split; [reflexivity|].
          split; [|simpl; lia].
          cbn [splitBytes andb]. reflexivity. }
      rewrite Hsplit. cbn [whileLoop].
      destruct (Z.ltb_spec (len done + len pend) (len (done ++ pend ++ b :: rest))); [|lia].
      rewrite Hsel, Hfc.
      assert (Hlen1 : len (done ++ pend ++ b :: rest) = len done1 + len pend1 + len rest1).
      { rewrite Hbuf, !len_app. lia. }
      set (buf := done ++ pend ++ b :: rest) in *.
      assert (HF := forLoop_spec rest1 (Z.to_nat (len buf - (len done1 + len pend1))) done1 pend1).
      rewrite <- Hbuf in HF. rewrite HF by (rewrite Hlen1; unfold len; lia).
      clear HF.
      rewrite splitBytes_break.
      pose proof (breakLine_eq rest1) as Hbrk.
      destruct (breakLine rest1) as [before [[t after]|]].
      * destruct Hbrk as [Hrest1 Ht].
        pose proof (len_nonneg done1). pose proof (len_nonneg pend1).
        pose proof (len_nonneg before).
        destruct (Z.eqb_spec (len done1 + len pend1 + len before) (-1)); [lia|].
        assert (Hbuf2 : buf = (done1 ++ pend1 ++ before ++ [t]) ++ [] ++ after).
        { rewrite Hbuf, Hrest1. simpl. rewrite <- !app_assoc. reflexivity. }
        assert (Hpos2 : len done1 + len pend1 + len before + 1 =
                        len (done1 ++ pend1 ++ before ++ [t])).
        { rewrite !len_app, len_cons, len_nil. lia. }
        specialize (IH (done1 ++ pend1 ++ before ++ [t]) [] after
                      (t =? CarriageReturn)).
        assert (Hfa : (length after <= fuel)%nat).
        { subst rest1. rewrite length_app in Hl1. simpl in Hl1, Hfuel. lia. }
        specialize (IH Hfa (fun _ => eq_refl)).
        destruct (splitBytes [] (t =? CarriageReturn) after) as [out [pend' d']].
        destruct IH as (done' & Hdone' & Hloop).
        rewrite <- Hbuf2 in Hdone', Hloop.
        rewrite len_nil, Z.add_0_r in Hloop. cbn [firstColon] in Hloop.
        exists done'. split; [exact Hdone'|].
        rewrite Hpos2, Hloop.
        assert (Hsub : subarray buf (len done1)
                         (len done1 + len pend1 + len before) = pend1 ++ before).
        { rewrite Hbuf, Hrest1.
          replace (done1 ++ pend1 ++ before ++ t :: after)
            with (done1 ++ (pend1 ++ before) ++ t :: after)
            by (now rewrite <- !app_assoc).
          replace (len done1 + len pend1 + len before)
            with (len done1 + len (pend1 ++ before))
            by (rewrite len_app; lia).
          apply subarray_middle. }
        rewrite Hsub. reflexivity.
      * subst before. cbn [Z.eqb Pos.eqb].
        exists done1. split; [exact Hbuf|].
        rewrite Hlen1. reflexivity.
Qed.

(** ** One chunk, and all of them *)

Lemma Rep_discard st pend d : Rep st pend d -> d = true -> pend = [].
Proof.
  intros [_ H] Hd. destruct pend; [reflexivity|].
  destruct H as (_ & _ & _ & H). congruence.
Qed.

Lemma onChunk_spec st pend d arr :
  Rep st pend d ->
  let '(out, (pend', d')) := splitBytes pend d arr in
  exists st', onChunk st arr = (out, st') /\ Rep st' pend' d'.
Proof.
  intros HRep.
  pose proof (Rep_discard _ _ _ HRep) as Hd.
  pose proof (splitBytes_discard arr pend d Hd) as Hd'.
  assert (Hloop : exists buf pos fl,
    (match buffer st with
     | None => (arr, 0, -1)
     | Some old => (old ++ arr, position st, fieldLength st)
     end) = (buf, pos, fl) /\
    discardTrailingNewline st = d /\
    let '(out, (pend', d')) := splitBytes pend d arr in
    exists done',
      buf = done' ++ pend' /\
      whileLoop (S (Z.to_nat (len buf - pos))) buf 0 pos fl d =
      (out, (len done', len buf, firstColon pend', d'))).
  { destruct HRep as [Hdis Hbuf]. destruct pend as [|p pend].
    - rewrite Hbuf. exists arr, 0, (-1). split; [reflexivity|]. split; [exact Hdis|].
      pose proof (whileLoop_spec (S (Z.to_nat (len arr - 0))) [] [] arr d) as H.
      simpl app in H. cbn [len length Z.of_nat Z.add firstColon] in H.
      apply H; [unfold len; lia | exact Hd].
    - destruct Hbuf as (Hb & Hp & Hf & Hfalse). rewrite Hb, Hp, Hf.
      exists ((p :: pend) ++ arr), (len (p :: pend)), (firstColon (p :: pend)).
      split; [reflexivity|]. split; [exact Hdis|].
      pose proof (whileLoop_spec
        (S (Z.to_nat (len ((p :: pend) ++ arr) - len (p :: pend))))
        [] (p :: pend) arr d) as H.
      change ([] ++ (p :: pend) ++ arr) with ((p :: pend) ++ arr) in H.
      change (len [] + len (p :: pend)) with (len (p :: pend)) in H.
      change (len []) with 0 in H.
      apply H; [rewrite len_app; unfold len; lia | exact Hd]. }
  destruct Hloop as (buf & pos & fl & Hsel & Hdis & Hloop).
  destruct (splitBytes pend d arr) as [out [pend' d']].
  destruct Hloop as (done' & Hbuf & Hloop).
  unfold onChunk. rewrite Hsel, Hdis, Hloop.
  pose proof (len_nonneg done') as Hn. pose proof (len_nonneg pend') as Hn'.
  assert (Hlen : len buf = len done' + len pend') by (now rewrite Hbuf, len_app).
  destruct (Z.eqb_spec (len done') (len buf)) as [E|E].
  - eexists. split; [reflexivity|].
    assert (pend' = []) as -> by (apply len_zero; lia).
    split; reflexivity.
  - assert (Hne : pend' <> []) by (intros ->; rewrite len_nil in Hlen; lia).
    assert (Hfalse : d' = false).
    { destruct d'; [|reflexivity]. now specialize (Hd' eq_refl). }
    destruct (Z.eqb_spec (len done') 0) as [E0|E0]; cbn [negb].
    + eexists. split; [reflexivity|].
      apply len_zero in E0. subst done'. simpl in Hbuf. subst buf.
      destruct pend' as [|p' pend']; [contradiction|].
      split; [reflexivity|]. cbn [buffer position fieldLength].
      repeat split; assumption.
    + eexists. split; [reflexivity|].
      rewrite Hbuf, subarray_from_suffix.
      destruct pend' as [|p' pend']; [contradiction|].
      split; [reflexivity|]. cbn [buffer position fieldLength].
      repeat split; [rewrite len_app; lia | assumption].
Qed.

Lemma readChunks_spec chunks : forall st pend d,
  Rep st pend d ->
  let '(out, (pend', d')) := splitBytes pend d (concat chunks) in
  exists st', readChunks st chunks = (out, st') /\ Rep st' pend' d'.
Proof.
  induction chunks as [|arr chunks IH]; intros st pend d HRep.
  - simpl. exists st. now split.
  - cbn [concat readChunks]. rewrite splitBytes_app.
    pose proof (onChunk_spec st pend d arr HRep) as H1.
    destruct (splitBytes pend d arr) as [out1 [pend1 d1]].
    destruct H1 as (st1 & -> & HRep1).
    specialize (IH st1 pend1 d1 HRep1).
    destruct (splitBytes pend1 d1 (concat chunks)) as [out2 [pend2 d2]].
    destruct IH as (st2 & -> & HRep2).
    exists st2. now split.
Qed.

Lemma Rep_initial : Rep initialReader [] false.
Proof. now split. Qed.

Lemma flushReader_spec st pend d :
  Rep st pend d ->
  flushReader st = match pend with
                   | [] => []
                   | _ :: _ => [(pend, firstColon pend)]
                   end.
Proof.
  intros [_ H]. unfold flushReader. destruct pend.
  - now rewrite H.
  - destruct H as (-> & _ & -> & _). reflexivity.
Qed.

(** The generator yields the logical lines of the concatenated stream. *)
Lemma createLineReader_logicalLines (chunks : list Uint8Array) :
  createLineReader chunks = logicalLines (concat chunks).
Proof.
  unfold createLineReader, logicalLines.
  pose proof (readChunks_spec chunks initialReader [] false Rep_initial) as H.
  destruct (splitBytes [] false (concat chunks)) as [out [pend d]].
  destruct H as (st & -> & HRep).
  now rewrite (flushReader_spec st pend d HRep).
Qed.

(** ** Properties of the byte machine *)

Lemma firstColon_spec (l : list Z) :
  (firstColon l = -1 /\ ~ In Colon l) \/
  (exists field value,
     l = field ++ Colon :: value /\ ~ In Colon field /\
     firstColon l = len field).
Proof.
  induction l as [|b l IH]; [left; split; [reflexivity|intros []]|].
  cbn [firstColon]. destruct (Z.eqb_spec b Colon) as [E|E].
  - right. exists [], l. subst b. repeat split. intros [].
  - destruct IH as [[H1 H2]|(field & value & H1 & H2 & H3)].
    + left. rewrite H1. split; [reflexivity|].
      intros [H|H]; [congruence|contradiction].
    + right. exists (b :: field), value. rewrite H1 at 1.
      split; [reflexivity|]. split.
      * intros [H|H]; [congruence|contradiction].
      * rewrite H3, len_cons. pose proof (len_nonneg field).
        destruct (Z.eqb_spec (len field) (-1)); lia.
Qed.

(** Every line the machine puts out carries its first colon. *)
Lemma splitBytes_offsets (bs : list Z) : forall pend d line fl,
  In (line, fl) (fst (splitBytes pend d bs)) -> fl = firstColon line.
Proof.
  induction bs as [|b bs IH]; intros pend d line fl; simpl; [intros []|].
  destruct (d && (b =? NewLine)); [apply IH|].
  destruct (isTerminator b); [|apply IH].
  specialize (IH [] (b =? CarriageReturn) line fl).
  destruct (splitBytes [] (b =? CarriageReturn) bs) as [out final].
  simpl. intros [H|H]; [now inversion H | now apply IH].
Qed.

Lemma logicalLines_offsets (bs : list Z) (line : list Z) (fl : Z) :
  In (line, fl) (logicalLines bs) -> fl = firstColon line.
Proof.
  unfold logicalLines.
  pose proof (splitBytes_offsets bs [] false line fl) as H.
  destruct (splitBytes [] false bs) as [out [pend d]]. simpl in H.
  intros Hin. apply in_app_or in Hin. destruct Hin as [Hin|Hin]; [auto|].
  destruct pend; [destruct Hin|].
  destruct Hin as [Hin|[]]. now inversion Hin.
Qed.

(** After a non-empty input the flag tells whether its last byte was a
    carriage return. *)
Lemma splitBytes_flag (l : list Z) (x : Z) (pend : list Z) (d : bool) :
  snd (snd (splitBytes pend d (l ++ [x]))) = (x =? CarriageReturn).
Proof.
  rewrite splitBytes_app.
  destruct (splitBytes pend d l) as [out1 [pend1 d1]].
  cbn [splitBytes]. unfold isTerminator.
  destruct (Z.eqb_spec x NewLine) as [E|E].
  - subst x. destruct d1; reflexivity.
  - rewrite andb_false_r, orb_false_r.
    destruct (x =? CarriageReturn); reflexivity.
Qed.

Lemma endsWithCR_snoc (l : list Z) (x : Z) :
  endsWithCR (l ++ [x]) = (x =? CarriageReturn).
Proof. unfold endsWithCR. now rewrite rev_app_distr. Qed.

Lemma endsWithTerminator_snoc (l : list Z) (x : Z) :
  endsWithTerminator (l ++ [x]) = isTerminator x.
Proof. unfold endsWithTerminator. now rewrite rev_app_distr. Qed.

Lemma splitBytes_flag_end (p : list Z) :
  snd (snd (splitBytes [] false p)) = endsWithCR p.
Proof.
  induction p as [|x l _] using rev_ind; [reflexivity|].
  now rewrite splitBytes_flag, endsWithCR_snoc.
Qed.

(** A stream that is empty or ends on a terminator leaves nothing
    pending. *)
Lemma splitBytes_pending_end (p : list Z) :
  p = [] \/ endsWithTerminator p = true ->
  fst (snd (splitBytes [] false p)) = [].
Proof.
  induction p as [|x l _] using rev_ind; [reflexivity|].
  intros [H|H]; [now destruct l|].
  rewrite endsWithTerminator_snoc in H.
  rewrite splitBytes_app.
  pose proof (splitBytes_discard l [] false (fun _ => eq_refl)) as Hd.
  destruct (splitBytes [] false l) as [out1 [pend1 d1]].
  cbn [splitBytes]. rewrite H.
  destruct (d1 && (x =? NewLine)) eqn:E; [|reflexivity].
  apply andb_prop in E. simpl. apply Hd, E.
Qed.

(** A run of bytes without terminator only extends the pending line. *)
Lemma splitBytes_no_terminator (tail : list Z) : forall pend d,
  Forall (fun b => isTerminator b = false) tail ->
  splitBytes pend d tail =
  ([], (pend ++ tail, match tail with [] => d | _ :: _ => false end)).
Proof.
  induction tail as [|b tail IH]; intros pend d H.
  - simpl. now rewrite app_nil_r.
  - inversion H as [|? ? Hb Ht]; subst. cbn [splitBytes]. rewrite Hb.
    assert ((b =? NewLine) = false) as ->.
    { unfold isTerminator in Hb. now apply orb_false_elim in Hb. }
    rewrite andb_false_r, (IH _ _ Ht), <- app_assoc.
    now destruct tail.
Qed.

Lemma splitBytes_count (bs : list Z) : forall pend d,
  length (fst (splitBytes pend d bs)) = countTerminators d bs.
Proof.
  induction bs as [|b bs IH]; intros pend d; simpl; [reflexivity|].
  destruct (d && (b =? NewLine)); [apply IH|].
  destruct (isTerminator b); [|apply IH].
  specialize (IH [] (b =? CarriageReturn)).
  destruct (splitBytes [] (b =? CarriageReturn) bs). simpl in *. now rewrite IH.
Qed.

Lemma splitBytes_CRLF (pend s : list Z) :
  splitBytes pend false (CarriageReturn :: NewLine :: s) =
  splitBytes pend false (NewLine :: s).
Proof. reflexivity. Qed.

Lemma splitBytes_CR (pend : list Z) (b : Z) (s : list Z) :
  startsWithLF (b :: s) = false ->
  splitBytes pend false (CarriageReturn :: b :: s) =
  splitBytes pend false (NewLine :: b :: s).
Proof.
  simpl. intros H.
  change (splitBytes pend false (CarriageReturn :: b :: s))
    with (let '(rest, final) := splitBytes [] true (b :: s) in
          ((pend, firstColon pend) :: rest, final)).
  change (splitBytes pend false (NewLine :: b :: s))
    with (let '(rest, final) := splitBytes [] false (b :: s) in
          ((pend, firstColon pend) :: rest, final)).
  cbn [splitBytes]. now rewrite H.
Qed.

(** Every stream is a part that is empty or ends on a terminator, followed
    by a part without terminator. *)
Lemma stream_decomposition (bs : list Z) :
  exists pre tail,
    bs = pre ++ tail /\
    (pre = [] \/ endsWithTerminator pre = true) /\
    Forall (fun b => isTerminator b = false) tail.
Proof.
  induction bs as [|x l IH] using rev_ind.
  - exists [], []. repeat split; auto.
  - destruct (isTerminator x) eqn:E.
    + exists (l ++ [x]), []. rewrite app_nil_r. repeat split; auto.
      right. now rewrite endsWithTerminator_snoc.
    + destruct IH as (pre & tail & -> & Hpre & Htail).
      exists pre, (tail ++ [x]). rewrite <- app_assoc. repeat split; auto.
      apply Forall_app. split; [exact Htail|]. now constructor.
Qed.

(** ** The line splitter: claims *)

(** C1. Chunk-boundary invariance: however the bytes of a stream are cut
    into chunks (empty chunks included), [createLineReader] yields the same
    sequence of lines and separator offsets as for the stream delivered
    in one single chunk. *)
Theorem createLineReader_chunk_invariance (chunks : list Uint8Array) :
  createLineReader chunks = createLineReader [concat chunks].
Proof.
  rewrite !createLineReader_logicalLines.
  cbn [concat]. now rewrite app_nil_r.
Qed.

(** C6. The separator offset reported with a yielded line is the index
    of the first colon of that line, counted from the start of the line,
    and [-1] when the line has no colon: either the line has no colon,
    or it is a colon-free [field], the colon, and a [value] in which any
    further colons stay. *)
Theorem separatorOffset_is_first_colon
    (chunks : list Uint8Array) (line : Uint8Array) (fl : Z) :
  In (line, fl) (createLineReader chunks) ->
  (fl = -1 /\ ~ In Colon line) \/
  (exists field value,
     line = field ++ Colon :: value /\ ~ In Colon field /\ fl = len field).
Proof.
  rewrite createLineReader_logicalLines. intros H.
  apply logicalLines_offsets in H. subst fl.
  destruct (firstColon_spec line) as [H|(field & value & H1 & H2 & H3)].
  - now left.
  - right. exists field, value. now repeat split.
Qed.

Lemma separatorOffset_is_first_colon_witness :
  (2 = -1 /\ ~ In Colon [105; 100; 58; 32; 97; 58; 98]) \/
  (exists field value,
     [105; 100; 58; 32; 97; 58; 98] = field ++ Colon :: value /\
     ~ In Colon field /\ 2 = len field).
Proof.
  apply (separatorOffset_is_first_colon
           [[105; 100]; [58; 32; 97; 58]; [98; 10]]).
  vm_compute. left. reflexivity.
Defined.

(** C9. End of stream.  Let the stream be [pre ++ tail], with [pre] empty
    or ending on a terminator and [tail] free of terminators.  Then the
    lines yielded are those of [pre], one for each of its terminators,
    followed, when [tail] is not empty, by [tail] once, with the offset of
    its first colon; when [tail] is empty nothing follows. *)
Theorem createLineReader_end_of_stream
    (chunks : list Uint8Array) (pre tail : list Z) :
  concat chunks = pre ++ tail ->
  pre = [] \/ endsWithTerminator pre = true ->
  Forall (fun b => isTerminator b = false) tail ->
  createLineReader chunks =
    createLineReader [pre] ++
    match tail with
    | [] => []
    | _ :: _ => [(tail, firstColon tail)]
    end /\
  length (createLineReader [pre]) = countTerminators false pre.
Proof.
  intros Hcat Hpre Htail.
  rewrite !createLineReader_logicalLines, Hcat.
  cbn [concat]. rewrite app_nil_r.
  unfold logicalLines. rewrite splitBytes_app.
  pose proof (splitBytes_pending_end pre Hpre) as Hpend.
  pose proof (splitBytes_count pre [] false) as Hcount.
  destruct (splitBytes [] false pre) as [out [pend d]].
  simpl in Hpend, Hcount. subst pend.
  rewrite (splitBytes_no_terminator tail [] d Htail).
  cbn [app]. rewrite !app_nil_r. split; [reflexivity | exact Hcount].
Qed.

Lemma createLineReader_end_of_stream_witness :
  createLineReader [[97; 58; 13]; [10; 98]; [58; 99]] =
    createLineReader [[97; 58; 13; 10]] ++ [([98; 58; 99], 1)] /\
  length (createLineReader [[97; 58; 13; 10]]) = 1%nat.
Proof.
  apply (createLineReader_end_of_stream
           [[97; 58; 13]; [10; 98]; [58; 99]] [97; 58; 13; 10] [98; 58; 99]).
  - reflexivity.
  - right. reflexivity.
  - repeat constructor.
Defined.

(** ** The field parser: claims *)

Lemma string_eqb_spec (s t : JSString) : reflect (s = t) (string_eqb s t).
Proof.
  revert t. induction s as [|c s IH]; intros [|d t]; simpl;
    try (constructor; congruence).
  destruct (Z.eqb_spec c d) as [E|E]; simpl.
  - destruct (IH t); constructor; congruence.
  - constructor. congruence.
Qed.

Lemma switchField_unrecognized (field value : JSString) :
  unrecognized field -> switchField field value = [].
Proof.
  intros (H1 & H2 & H3 & H4). unfold switchField.
  destruct (string_eqb_spec field (str "data")); [contradiction|].
  destruct (string_eqb_spec field (str "event")); [contradiction|].
  destruct (string_eqb_spec field (str "id")); [contradiction|].
  destruct (string_eqb_spec field (str "retry")); [contradiction|].
  reflexivity.
Qed.

Lemma switchField_retry (value : JSString) :
  switchField (str "retry") value =
  if isNaN (parseInt value) then [] else [PartRetry (parseInt value)].
Proof.
  change (switchField (str "retry") value)
    with (if negb (isNaN (parseInt value))
          then [PartRetry (parseInt value)] else []).
  now destruct (isNaN (parseInt value)).
Qed.

(** [parseInt] gives [NaN] exactly when there is no digit to read. *)
Lemma parseInt_NaN (s : JSString) :
  isNaN (parseInt s) = true <-> parseInt10 s = None.
Proof.
  unfold parseInt. destruct (parseInt10 s) as [z|]; [|now split].
  split; [|discriminate]. intros H. exfalso.
  destruct (Z.eqb_spec z 0) as [E|E].
  - destruct (hasMinusSign s); discriminate H.
  - unfold numberOfInteger in H.
    destruct (2 ^ 1024 <=? roundTo53 (Z.abs z)); discriminate H.
Qed.

Lemma len_pos_nonempty (l : list Z) : l <> [] -> (len l =? 0) = false.
Proof.
  intros H. destruct l; [contradiction|]. rewrite len_cons.
  pose proof (len_nonneg l). apply Z.eqb_neq. lia.
Qed.

(** The field and the value the parser cuts out of [field:value]. *)
Lemma fieldOf_valueOf (field value : list Z) :
  fieldOf (field ++ Colon :: value) (len field) = decode field /\
  valueOf (field ++ Colon :: value) (len field) = decode (stripSpace value).
Proof.
  unfold fieldOf, valueOf, valueOffsetOf. split.
  - now rewrite subarray_prefix.
  - assert (Hlen : len field + 1 = len (field ++ [Colon])).
    { rewrite len_app, len_cons, len_nil. lia. }
    assert (Hline : field ++ Colon :: value = (field ++ [Colon]) ++ value).
    { now rewrite <- app_assoc. }
    destruct value as [|b value].
    + rewrite get_outside by (rewrite len_app, len_cons, len_nil; lia).
      cbn [is_char stripSpace]. rewrite Hline, Hlen.
      now rewrite subarray_from_suffix.
    + rewrite Hline, Hlen, get_middle. cbn [is_char stripSpace].
      destruct (b =? Space).
      * replace ((field ++ [Colon]) ++ b :: value)
          with ((field ++ [Colon; b]) ++ value)
          by (rewrite <- !app_assoc; reflexivity).
        replace (len field + 2) with (len (field ++ [Colon; b]))
          by (rewrite len_app, !len_cons, len_nil; lia).
        now rewrite subarray_from_suffix.
      * rewrite Hlen. now rewrite subarray_from_suffix.
Qed.

(** C7. Every line yielded with a strictly positive separator offset is a
    field name, the colon and a value; the parser decodes the bytes before
    the offset as the field and the bytes after the colon, less one single
    leading space, as the value.  So [data: value] and [data:value] give
    the same value, and [data:  value] keeps its second space. *)
Theorem field_value_decoding :
  (forall (chunks : list Uint8Array) (line : Uint8Array) (fl : Z),
     In (line, fl) (createLineReader chunks) ->
     0 < fl ->
     exists field value,
       line = field ++ Colon :: value /\ fl = len field /\
       subarray line 0 fl = field /\
       subarray_from line (fl + 1) = value /\
       partsOfLine (line, fl) =
         switchField (decode field) (decode (stripSpace value))) /\
  readEventMessagePart [str "data: value" ++ [NewLine]] =
    [PartData (str "value")] /\
  readEventMessagePart [str "data:value" ++ [NewLine]] =
    [PartData (str "value")] /\
  readEventMessagePart [str "data:  value" ++ [NewLine]] =
    [PartData (str " value")].
Proof.
  split; [|repeat split; reflexivity].
  intros chunks line fl Hin Hfl.
  rewrite createLineReader_logicalLines in Hin.
  apply logicalLines_offsets in Hin.
  destruct (firstColon_spec line) as [[H _]|(field & value & H1 & _ & H3)];
    [lia|].
  exists field, value. subst line. rewrite Hin, H3.
  destruct (fieldOf_valueOf field value) as [Hf Hv].
  repeat split.
  - apply subarray_prefix.
  - replace (len field + 1) with (len (field ++ [Colon]))
      by (rewrite len_app, len_cons, len_nil; lia).
    replace (field ++ Colon :: value) with ((field ++ [Colon]) ++ value)
      by (now rewrite <- app_assoc).
    apply subarray_from_suffix.
  - unfold partsOfLine. rewrite len_pos_nonempty by (now destruct field).
    rewrite Hin, H3 in Hfl.
    destruct (Z.gtb_spec (len field) 0); [|lia].
    now rewrite Hf, Hv.
Qed.

Lemma field_value_decoding_witness :
  exists field value,
    str "id: abc: def" = field ++ Colon :: value /\ 2 = len field /\
    subarray (str "id: abc: def") 0 2 = field /\
    subarray_from (str "id: abc: def") (2 + 1) = value /\
    partsOfLine (str "id: abc: def", 2) =
      switchField (decode field) (decode (stripSpace value)).
Proof.
  apply (proj1 field_value_decoding [str "id: abc: def" ++ [NewLine]]).
  - vm_compute. left. reflexivity.
  - lia.
Defined.

(** C8. The parser drops in silence: a non-empty line yields no part when
    its separator offset is not strictly positive (a yielded line without
    colon, or one that starts with a colon, the line [:] included), when
    its field name is not recognized, and when it is a [retry] line whose
    value does not parse as an integer.  The parser is a total function and
    the decoder replaces malformed input, so there is no error to raise. *)
Theorem silent_drop
    (chunks : list Uint8Array) (line : Uint8Array) (fl : Z) :
  In (line, fl) (createLineReader chunks) ->
  line <> [] ->
  fl <= 0 \/ ~ In Colon line \/ (exists rest, line = Colon :: rest) \/
  unrecognized (fieldOf line fl) \/
  (fieldOf line fl = str "retry" /\ parseInt10 (valueOf line fl) = None) ->
  partsOfLine (line, fl) = [].
Proof.
  intros Hin Hne H.
  rewrite createLineReader_logicalLines in Hin.
  apply logicalLines_offsets in Hin.
  unfold partsOfLine. rewrite (len_pos_nonempty line Hne).
  destruct (Z.gtb_spec fl 0) as [Hpos|Hpos]; [|reflexivity].
  destruct H as [H|[H|[[rest H]|[H|[H1 H2]]]]].
  - lia.
  - destruct (firstColon_spec line) as [[E _]|(f & v & E & _)]; [lia|].
    subst line. exfalso. apply H, in_elt.
  - subst line. simpl in Hin. lia.
  - now apply switchField_unrecognized.
  - rewrite H1, switchField_retry.
    now rewrite (proj2 (parseInt_NaN _) H2).
Qed.

Lemma silent_drop_witness :
  partsOfLine (str "foo: bar", 3) = [] /\
  partsOfLine (str "retry: x", 5) = [] /\
  partsOfLine (str ":", 0) = [] /\
  partsOfLine (str "data", -1) = [].
Proof.
  pose (chunks := [str "foo: bar" ++ [NewLine] ++ str "retry: x" ++ [NewLine]
                   ++ str ":" ++ [NewLine] ++ str "data" ++ [NewLine]]).
  split; [|split; [|split]].
  - apply (silent_drop chunks).
    + vm_compute. tauto.
    + discriminate.
    + right. right. right. left. vm_compute. repeat split; discriminate.
  - apply (silent_drop chunks).
    + vm_compute. tauto.
    + discriminate.
    + right. right. right. right. vm_compute. split; reflexivity.
  - apply (silent_drop chunks).
    + vm_compute. tauto.
    + discriminate.
    + right. right. left. now exists [].
  - apply (silent_drop chunks).
    + vm_compute. tauto.
    + discriminate.
    + left. lia.
Defined.

(** C10. A line whose field name is [retry] yields a [Retry] part exactly
    when [parseInt(value, 10)] is not [NaN], and the part carries that
    result, a Number: so digits followed by other characters, and a signed
    value, give a part; an integer that no double holds is rounded, minus
    zero keeps its sign, and an integer beyond the doubles is infinite. *)
Theorem retry_lenient_parsing :
  (forall (line : Uint8Array) (fl : Z),
     line <> [] -> 0 < fl -> fieldOf line fl = str "retry" ->
     partsOfLine (line, fl) =
       if isNaN (parseInt (valueOf line fl)) then []
       else [PartRetry (parseInt (valueOf line fl))]) /\
  readEventMessagePart [str "retry: 512abc" ++ [NewLine]] = [PartRetry 512] /\
  readEventMessagePart [str "retry: -5" ++ [NewLine]] = [PartRetry (-5)] /\
  readEventMessagePart [str "retry: x" ++ [NewLine]] = [] /\
  readEventMessagePart [str "retry: 9007199254740993" ++ [NewLine]] =
    [PartRetry 9007199254740992] /\
  readEventMessagePart [str "retry: 9007199254740995" ++ [NewLine]] =
    [PartRetry 9007199254740996] /\
  readEventMessagePart [str "retry: -0" ++ [NewLine]] =
    [PartRetry NumNegZero] /\
  readEventMessagePart [str "retry: 1" ++ repeat 48 309 ++ [NewLine]] =
    [PartRetry (NumInfinity false)].
Proof.
  split; [|repeat split; vm_compute; reflexivity].
  intros line fl Hne Hfl Hfield. unfold partsOfLine.
  rewrite (len_pos_nonempty line Hne).
  destruct (Z.gtb_spec fl 0); [|lia].
  now rewrite Hfield, switchField_retry.
Qed.

Lemma retry_lenient_parsing_witness :
  partsOfLine (str "retry:+12 ms", 5) = [PartRetry 12].
Proof.
  apply (proj1 retry_lenient_parsing (str "retry:+12 ms") 5).
  - discriminate.
  - lia.
  - reflexivity.
Defined.

(** ** The store *)

Lemma length_update (h : Store) : forall a f, length (update h a f) = length h.
Proof.
  induction h as [|m h IH]; intros [|a] f; simpl; try reflexivity.
  now rewrite IH.
Qed.

Lemma deref_update_same (h : Store) : forall a f,
  (a < length h)%nat -> deref (update h a f) a = f (deref h a).
Proof.
  induction h as [|m h IH]; intros [|a] f H; simpl in *; try lia.
  - reflexivity.
  - apply IH. lia.
Qed.

Lemma deref_update_other (h : Store) : forall a b f,
  a <> b -> deref (update h a f) b = deref h b.
Proof.
  induction h as [|m h IH]; intros [|a] [|b] f H; simpl; try reflexivity.
  - contradiction.
  - apply IH. congruence.
Qed.

Lemma deref_app_old (h l : Store) (a : nat) :
  (a < length h)%nat -> deref (h ++ l) a = deref h a.
Proof. intros H. unfold deref. now apply app_nth1. Qed.

Lemma deref_app_new (h : Store) (m : EventSourceMessage) :
  deref (h ++ [m]) (length h) = m.
Proof. unfold deref. rewrite app_nth2, Nat.sub_diag by lia. reflexivity. Qed.

(** ** The message assembler on the store and on values *)

(** One part: the object in progress afterwards, what is yielded, and
    which objects of the store are left as they were. *)
Lemma onPart_spec (st : Assembler) (part : EventSourceMessagePart) :
  validAssembler st ->
  let '(y, st') := onPart st part in
  validAssembler st' /\
  currentMessage st' = applyPart (currentMessage st) part /\
  y = (if isPartEmpty part then Some (message st) else None) /\
  message st' = (if isPartEmpty part then S (message st) else message st) /\
  (forall b, (b < message st')%nat -> (b <> message st \/ isPartEmpty part = true) ->
             deref (store st') b = deref (store st) b).
Proof.
  unfold validAssembler, currentMessage. intros Hv.
  destruct part; cbn [onPart isPartEmpty store message applyPart].
  - repeat split.
    + rewrite length_app. simpl. lia.
    + apply deref_app_new.
    + exact Hv.
    + intros b Hb _. apply deref_app_old. lia.
  - repeat split.
    + now rewrite length_update.
    + rewrite deref_update_same by lia. reflexivity.
    + intros b _ [Hb|Hb]; [|discriminate].
      apply deref_update_other. congruence.
  - repeat split.
    + now rewrite length_update.
    + rewrite deref_update_same by lia. reflexivity.
    + intros b _ [Hb|Hb]; [|discriminate].
      apply deref_update_other. congruence.
  - repeat split.
    + now rewrite length_update.
    + rewrite deref_update_same by lia. reflexivity.
    + intros b _ [Hb|Hb]; [|discriminate].
      apply deref_update_other. congruence.
  - repeat split.
    + now rewrite length_update.
    + rewrite deref_update_same by lia. reflexivity.
    + intros b _ [Hb|Hb]; [|discriminate].
      apply deref_update_other. congruence.
Qed.

Lemma messagesOf_cons (m : EventSourceMessage) (part : EventSourceMessagePart)
    (parts : list EventSourceMessagePart) :
  messagesOf m (part :: parts) =
  (if isPartEmpty part then [m] else []) ++
  messagesOf (applyPart m part) parts.
Proof. destruct part; reflexivity. Qed.

(** A sequence of parts: the values yielded are those of the machine on
    values; the objects yielded are pairwise distinct, and each holds at
    the end what it held when it was yielded. *)
Lemma onParts_spec (parts : list EventSourceMessagePart) : forall st,
  validAssembler st ->
  let '(ys, st') := onParts st parts in
  validAssembler st' /\
  map snd ys ++ [currentMessage st'] = messagesOf (currentMessage st) parts /\
  (message st <= message st')%nat /\
  (forall b, (b < message st)%nat ->
             deref (store st') b = deref (store st) b) /\
  Forall (fun y => (message st <= fst y < message st')%nat /\
                   deref (store st') (fst y) = snd y) ys /\
  NoDup (map fst ys) /\
  length ys = countEmpty parts.
Proof.
  induction parts as [|part parts IH]; intros st Hv.
  - simpl. repeat split; auto. constructor.
  - cbn [onParts]. pose proof (onPart_spec st part Hv) as H1.
    destruct (onPart st part) as [y st1].
    destruct H1 as (Hv1 & Hcur & Hy & Hmsg & Hold).
    specialize (IH st1 Hv1).
    destruct (onParts st1 parts) as [ys st2].
    destruct IH as (Hv2 & Hvals & Hle & Hold2 & Hall & Hnd & Hlen).
    rewrite messagesOf_cons, <- Hcur, <- Hvals. unfold countEmpty in *.
    cbn [filter]. subst y.
    destruct (isPartEmpty part) eqn:E.
    + assert (Hkeep : deref (store st2) (message st) = deref (store st) (message st)).
      { rewrite Hold2 by lia. apply Hold; [lia | now right]. }
      repeat split.
      * exact Hv2.
      * lia.
      * intros b Hb. rewrite Hold2 by lia. apply Hold; [lia | now right].
      * constructor; [simpl; split; [lia | exact Hkeep]|].
        eapply Forall_impl; [|exact Hall]. simpl. intros a [Ha1 Ha2].
        split; [lia | exact Ha2].
      * simpl. constructor; [|exact Hnd].
        intros Hin. apply in_map_iff in Hin. destruct Hin as (y & Hy1 & Hy2).
        rewrite Forall_forall in Hall. destruct (Hall y Hy2) as [Hr _]. lia.
      * simpl. now rewrite Hlen.
    + rewrite Hmsg in *. repeat split; try assumption.
      intros b Hb. rewrite Hold2 by lia. apply Hold; [lia | left; lia].
Qed.

Lemma validAssembler_initial : validAssembler initialAssembler.
Proof. reflexivity. Qed.

(** The messages of the generator are those of the machine on values. *)
Lemma assemble_values (parts : list EventSourceMessagePart) :
  map snd (fst (assemble parts)) = messagesOf freshMessage parts.
Proof.
  unfold assemble.
  pose proof (onParts_spec parts initialAssembler validAssembler_initial) as H.
  destruct (onParts initialAssembler parts) as [ys st].
  destruct H as (_ & H & _). cbn [fst]. rewrite map_app. exact H.
Qed.

Lemma messagesOf_last (parts : list EventSourceMessagePart) : forall m,
  messagesOf m parts =
  removelast (messagesOf m parts) ++ [fold_left applyPart parts m].
Proof.
  induction parts as [|part parts IH]; intros m; [reflexivity|].
  rewrite messagesOf_cons. cbn [fold_left].
  assert (Hne : messagesOf (applyPart m part) parts <> []).
  { rewrite IH. now destruct (removelast _). }
  destruct (isPartEmpty part); cbn [app].
  - rewrite (IH (applyPart m part)) at 1.
    change (m :: messagesOf (applyPart m part) parts)
      with ([m] ++ messagesOf (applyPart m part) parts).
    rewrite removelast_app by exact Hne. now rewrite <- app_assoc.
  - apply IH.
Qed.

(** The object in progress after a sequence of parts. *)
Lemma currentMessage_afterParts (parts : list EventSourceMessagePart) :
  currentMessage (afterParts parts) = fold_left applyPart parts freshMessage.
Proof.
  unfold afterParts.
  pose proof (onParts_spec parts initialAssembler validAssembler_initial) as H.
  destruct (onParts initialAssembler parts) as [ys st].
  destruct H as (_ & H & _). cbn [snd].
  change (currentMessage initialAssembler) with freshMessage in H.
  rewrite messagesOf_last in H. apply app_inj_tail in H. apply H.
Qed.

Lemma messagesOf_Empty (p1 : list EventSourceMessagePart) : forall p2 m,
  messagesOf m (p1 ++ PartEmpty :: p2) =
  messagesOf m p1 ++ messagesOf freshMessage p2.
Proof.
  induction p1 as [|part p1 IH]; intros p2 m; [reflexivity|].
  cbn [app]. rewrite !messagesOf_cons, IH. now rewrite app_assoc.
Qed.

Lemma fold_data_nonempty (ws : list JSString) : forall m,
  data m <> [] ->
  data (fold_left applyPart (map PartData ws) m) =
  data m ++ concat (map (fun w => NewLine :: w) ws).
Proof.
  induction ws as [|w ws IH]; intros m Hm; simpl.
  - now rewrite app_nil_r.
  - rewrite IH; simpl.
    + destruct (data m); [contradiction|]. simpl. now rewrite <- app_assoc.
    + destruct (data m); [contradiction|discriminate].
Qed.

Lemma fold_data_empty (vs : list JSString) : forall m,
  data m = [] ->
  data (fold_left applyPart (map PartData vs) m) = joinData vs.
Proof.
  induction vs as [|v vs IH]; intros m Hm; [exact Hm|].
  cbn [map fold_left]. destruct v as [|c v].
  - apply IH. simpl. now rewrite Hm.
  - rewrite fold_data_nonempty; simpl; rewrite Hm; [reflexivity|discriminate].
Qed.

(** ** The message assembler: claims *)

(** C2. Terminal emission.  For every stream the generator yields, after
    the messages emitted while the parts were read (one for each [Empty]
    part), the message in progress once more, whatever it holds; when the
    parts end with an [Empty], that last message is the all-default one.
    The input [id: abc], [data: def], each ended by a new line and with no
    blank line after, yields the single message with that id and data. *)
Theorem terminal_emission :
  (forall chunks : list Uint8Array,
     let parts := readEventMessagePart chunks in
     createEventMessageReader chunks =
       map snd (fst (onParts initialAssembler parts)) ++
       [currentMessage (afterParts parts)] /\
     length (map snd (fst (onParts initialAssembler parts))) =
       countEmpty parts) /\
  (forall parts : list EventSourceMessagePart,
     map snd (fst (assemble (parts ++ [PartEmpty]))) =
     map snd (fst (assemble parts)) ++ [freshMessage]) /\
  createEventMessageReader
    [str "id: abc" ++ [NewLine] ++ str "data: def" ++ [NewLine]] =
  [{| id := str "abc"; event := []; data := str "def"; retry := None |}].
Proof.
  split; [|split; [|reflexivity]].
  - intros chunks parts. unfold createEventMessageReader, assemble, afterParts.
    fold parts.
    pose proof (onParts_spec parts initialAssembler validAssembler_initial) as H.
    destruct (onParts initialAssembler parts) as [ys st].
    destruct H as (_ & _ & _ & _ & _ & _ & Hlen). cbn [fst snd].
    split; [now rewrite map_app | now rewrite length_map].
  - intros parts. now rewrite !assemble_values, messagesOf_Empty.
Qed.

Lemma assemble_length (parts : list EventSourceMessagePart) :
  length (fst (assemble parts)) = S (countEmpty parts).
Proof.
  unfold assemble.
  pose proof (onParts_spec parts initialAssembler validAssembler_initial) as H.
  destruct (onParts initialAssembler parts) as [ys st].
  destruct H as (_ & _ & _ & _ & _ & _ & Hlen). cbn [fst].
  rewrite length_app, Hlen. simpl. lia.
Qed.

Lemma onParts_values (parts : list EventSourceMessagePart) :
  map snd (fst (onParts initialAssembler parts)) ++
  [currentMessage (afterParts parts)] =
  messagesOf freshMessage parts /\
  length (fst (onParts initialAssembler parts)) = countEmpty parts.
Proof.
  unfold afterParts.
  pose proof (onParts_spec parts initialAssembler validAssembler_initial) as H.
  destruct (onParts initialAssembler parts) as [ys st].
  destruct H as (_ & H & _ & _ & _ & _ & Hlen). now split.
Qed.

(** C3. An [Empty] part emits exactly one message, which holds what the
    message in progress held, and the message in progress is all-default
    afterwards.  When the parts of a stream are [parts1], [Empty],
    [parts2], the generator yields the messages emitted while [parts1] was
    read (one for each [Empty] in it), then the message in progress at this
    [Empty], then the messages of [parts2] read from a fresh start (one
    for each [Empty] in it, and the last one); in all, one message for
    each [Empty] part and one more.  So neither id nor event carries over,
    as the example shows.  The emitted object is as good as a copy: the
    objects yielded are pairwise distinct, and at the end each still holds
    what it held when it was yielded. *)
Theorem empty_emits_and_resets :
  (forall (chunks : list Uint8Array)
          (parts1 parts2 : list EventSourceMessagePart),
     readEventMessagePart chunks = parts1 ++ PartEmpty :: parts2 ->
     createEventMessageReader chunks =
       map snd (fst (onParts initialAssembler parts1)) ++
       currentMessage (afterParts parts1) ::
       map snd (fst (assemble parts2)) /\
     length (fst (onParts initialAssembler parts1)) = countEmpty parts1 /\
     length (fst (assemble parts2)) = S (countEmpty parts2)) /\
  (forall chunks : list Uint8Array,
     length (createEventMessageReader chunks) =
     S (countEmpty (readEventMessagePart chunks))) /\
  (forall parts1 parts2 : list EventSourceMessagePart,
     map snd (fst (assemble (parts1 ++ PartEmpty :: parts2))) =
     map snd (fst (assemble parts1)) ++ map snd (fst (assemble parts2))) /\
  (forall parts : list EventSourceMessagePart,
     fst (onPart (afterParts parts) PartEmpty) =
       Some (message (afterParts parts)) /\
     currentMessage (afterParts (parts ++ [PartEmpty])) = freshMessage) /\
  (forall parts : list EventSourceMessagePart,
     let '(ys, st) := assemble parts in
     NoDup (map fst ys) /\
     Forall (fun y => deref (store st) (fst y) = snd y) ys) /\
  createEventMessageReader
    [str "id: 1" ++ [NewLine] ++ str "event: a" ++ [NewLine; NewLine] ++
     str "data: x" ++ [NewLine]] =
  [{| id := str "1"; event := str "a"; data := []; retry := None |};
   {| id := []; event := []; data := str "x"; retry := None |}].
Proof.
  split; [|split; [|split; [|split; [|split; [|reflexivity]]]]].
  - intros chunks parts1 parts2 H. unfold createEventMessageReader.
    rewrite H, assemble_values, messagesOf_Empty.
    destruct (onParts_values parts1) as [<- Hlen].
    rewrite <- assemble_values, <- app_assoc.
    split; [reflexivity|]. split; [exact Hlen | apply assemble_length].
  - intros chunks. unfold createEventMessageReader.
    rewrite length_map. apply assemble_length.
  - intros parts1 parts2. now rewrite !assemble_values, messagesOf_Empty.
  - intros parts. split; [reflexivity|].
    rewrite currentMessage_afterParts, fold_left_app. reflexivity.
  - intros parts. unfold assemble.
    pose proof (onParts_spec parts initialAssembler validAssembler_initial) as H.
    destruct (onParts initialAssembler parts) as [ys st].
    destruct H as (_ & _ & _ & _ & Hall & Hnd & _).
    split.
    + rewrite map_app. simpl. apply NoDup_app.
      * exact Hnd.
      * constructor; [intros []|constructor].
      * intros a Ha [Hb|[]]. subst a.
        apply in_map_iff in Ha. destruct Ha as (y & Hy1 & Hy2).
        rewrite Forall_forall in Hall. destruct (Hall y Hy2) as [Hr _]. lia.
    + apply Forall_app. split.
      * eapply Forall_impl; [|exact Hall]. simpl. tauto.
      * constructor; [reflexivity|constructor].
Qed.

Lemma empty_emits_and_resets_witness :
  createEventMessageReader
    [str "id: 1" ++ [NewLine]; str "event: a" ++ [NewLine; NewLine] ++
     str "data: x" ++ [NewLine; NewLine]] =
  map snd (fst (onParts initialAssembler [PartId (str "1"); PartEvent (str "a")])) ++
  currentMessage (afterParts [PartId (str "1"); PartEvent (str "a")]) ::
  map snd (fst (assemble [PartData (str "x"); PartEmpty])) /\
  length (fst (onParts initialAssembler
                 [PartId (str "1"); PartEvent (str "a")])) = 0%nat /\
  length (fst (assemble [PartData (str "x"); PartEmpty])) = 2%nat.
Proof.
  apply (proj1 empty_emits_and_resets
           [str "id: 1" ++ [NewLine]; str "event: a" ++ [NewLine; NewLine] ++
            str "data: x" ++ [NewLine; NewLine]]
           [PartId (str "1"); PartEvent (str "a")]
           [PartData (str "x"); PartEmpty]).
  reflexivity.
Defined.

(** C4. Data lines join with new lines.  A [Data] part emits nothing and
    sets the data of the message in progress to its value when that data
    is the empty string, and to the data, a new line and the value
    otherwise, the other fields being kept; so the data after the values
    [vs] that follow an [Empty] is [joinData vs].  The input [data: a],
    [data: b] and a blank line yields the message with data [a], new line,
    [b] (and then the all-default message of the end of the stream). *)
Theorem data_lines_join :
  (forall (parts : list EventSourceMessagePart) (v : JSString),
     let m := currentMessage (afterParts parts) in
     fst (onPart (afterParts parts) (PartData v)) = None /\
     currentMessage (afterParts (parts ++ [PartData v])) =
       {| id := id m; event := event m;
          data := match data m with
                  | [] => v
                  | _ :: _ => data m ++ [NewLine] ++ v
                  end;
          retry := retry m |}) /\
  (forall (parts : list EventSourceMessagePart) (vs : list JSString),
     data (currentMessage
             (afterParts (parts ++ PartEmpty :: map PartData vs))) =
     joinData vs) /\
  createEventMessageReader
    [str "data: a" ++ [NewLine] ++ str "data: b" ++ [NewLine; NewLine]] =
  [{| id := []; event := []; data := str "a" ++ [NewLine] ++ str "b";
      retry := None |};
   freshMessage].
Proof.
  split; [|split; [|reflexivity]].
  - intros parts v m. split; [reflexivity|].
    rewrite currentMessage_afterParts, fold_left_app.
    rewrite <- currentMessage_afterParts. reflexivity.
  - intros parts vs.
    rewrite currentMessage_afterParts, fold_left_app. cbn [fold_left applyPart].
    now apply fold_data_empty.
Qed.

(** ** The tests of the repository, run on the embedding *)

Example test_single_line :
  map fst (createLineReader [str "id: abc" ++ NL]) = [str "id: abc"].
Proof. reflexivity. Qed.

Example test_multiple_lines :
  map fst (createLineReader [str "id: abc" ++ NL ++ str "data: def" ++ NL]) =
  [str "id: abc"; str "data: def"].
Proof. reflexivity. Qed.

Example test_lines_split :
  map fst (createLineReader
             [str "id: ab" ++ NL ++ str "c" ++ NL ++ str "data: def" ++ NL]) =
  [str "id: ab"; str "c"; str "data: def"].
Proof. reflexivity. Qed.

Example test_multiple_colons :
  createLineReader [str "id: abc: def" ++ NL] = [(str "id: abc: def", 2)].
Proof. reflexivity. Qed.

Example test_not_newline_terminated :
  map fst (createLineReader
             [NL ++ str "data: data1" ++ NL ++ str "data: data2" ++ NL ++
              str "data: data3"]) =
  [[]; str "data: data1"; str "data: data2"; str "data: data3"].
Proof. reflexivity. Qed.

Example test_readEventMessage :
  createEventMessageReader
    [NL ++ str "data: data1" ++ NL ++ NL ++
     str "data: data2" ++ NL ++ str "data: data3" ++ NL ++ NL ++
     str "event: add" ++ NL ++ str "data: 73857293" ++ NL ++ NL ++
     str "event: remove" ++ NL ++ str "data: 2153" ++ NL ++ NL ++
     str "event: add" ++ NL ++ str "data: 113411" ++ NL] =
  [ {| id := []; event := []; data := []; retry := None |};
    {| id := []; event := []; data := str "data1"; retry := None |};
    {| id := []; event := [];
       data := str "data2" ++ NL ++ str "data3"; retry := None |};
    {| id := []; event := str "add"; data := str "73857293"; retry := None |};
    {| id := []; event := str "remove"; data := str "2153"; retry := None |};
    {| id := []; event := str "add"; data := str "113411"; retry := None |} ].
Proof. reflexivity. Qed.

(** ** The type guards *)

(** The five type guards tell the variants apart: each holds exactly for
    the parts of its variant, and exactly one of them holds for any part. *)
Theorem type_guards_partition (part : EventSourceMessagePart) :
  (isEventSourceMessagePartEmpty part = true <-> part = PartEmpty) /\
  (isEventSourceMessagePartData part = true <->
     exists v, part = PartData v) /\
  (isEventSourceMessagePartEvent part = true <->
     exists v, part = PartEvent v) /\
  (isEventSourceMessagePartId part = true <-> exists v, part = PartId v) /\
  (isEventSourceMessagePartRetry part = true <->
     exists n, part = PartRetry n) /\
  length (filter (fun g => g part)
            [isEventSourceMessagePartEmpty; isEventSourceMessagePartData;
             isEventSourceMessagePartEvent; isEventSourceMessagePartId;
             isEventSourceMessagePartRetry]) = 1%nat.
Proof.
  destruct part as [|v|v|v|n];
    (repeat split; try reflexivity;
     try (intros [w H]; discriminate H);
     try (intros H; discriminate H);
     try (intros _; eexists; reflexivity)).
Qed.

Lemma type_guards_partition_witness :
  isEventSourceMessagePartRetry (PartRetry 5) = true <->
  exists n, PartRetry 5 = PartRetry n.
Proof.
  apply (proj1 (proj2 (proj2 (proj2 (proj2
           (type_guards_partition (PartRetry 5))))))).
Defined.

(** ** More on the line splitter *)

Lemma splitBytes_terminatorFree (bs : list Z) : forall pend d,
  terminatorFree pend ->
  Forall (fun l => terminatorFree (fst l)) (fst (splitBytes pend d bs)) /\
  terminatorFree (fst (snd (splitBytes pend d bs))).
Proof.
  induction bs as [|b bs IH]; intros pend d Hp; simpl.
  - split; [constructor | exact Hp].
  - destruct (d && (b =? NewLine)); [now apply IH|].
    destruct (isTerminator b) eqn:E.
    + specialize (IH [] (b =? CarriageReturn) (Forall_nil _)).
      destruct (splitBytes [] (b =? CarriageReturn) bs) as [out final].
      simpl in *. destruct IH as [IH1 IH2].
      split; [constructor; assumption | assumption].
    + apply IH. apply Forall_app. split; [exact Hp|]. now constructor.
Qed.

(** No yielded line holds a carriage return or a new line. *)
Theorem lines_hold_no_terminator
    (chunks : list Uint8Array) (line : Uint8Array) (fl : Z) :
  In (line, fl) (createLineReader chunks) -> terminatorFree line.
Proof.
  rewrite createLineReader_logicalLines. unfold logicalLines.
  pose proof (splitBytes_terminatorFree (concat chunks) [] false
                (Forall_nil _)) as [H1 H2].
  destruct (splitBytes [] false (concat chunks)) as [out [pend d]].
  simpl in H1, H2. intros Hin. apply in_app_or in Hin.
  destruct Hin as [Hin|Hin].
  - rewrite Forall_forall in H1. exact (H1 _ Hin).
  - destruct pend; [destruct Hin|].
    destruct Hin as [Hin|[]]. inversion Hin; subst. exact H2.
Qed.

Lemma lines_hold_no_terminator_witness :
  terminatorFree [98; 58; 99].
Proof.
  apply (lines_hold_no_terminator [[97; 13]; [10; 98; 58]; [99]] _ 1).
  vm_compute. right. left. reflexivity.
Defined.

Lemma splitBytes_concat (bs : list Z) : forall pend d,
  concat (map fst (fst (splitBytes pend d bs))) ++
  fst (snd (splitBytes pend d bs)) =
  pend ++ removeTerminators bs.
Proof.
  unfold removeTerminators.
  induction bs as [|b bs IH]; intros pend d; simpl.
  - now rewrite app_nil_r.
  - destruct (d && (b =? NewLine)) eqn:E.
    + apply andb_prop in E. destruct E as [_ E].
      unfold isTerminator. rewrite E, orb_true_r. simpl. apply IH.
    + destruct (isTerminator b); simpl.
      * specialize (IH [] (b =? CarriageReturn)).
        destruct (splitBytes [] (b =? CarriageReturn) bs) as [out final].
        simpl in *. now rewrite <- app_assoc, IH.
      * rewrite IH. now rewrite <- app_assoc.
Qed.

(** The splitter loses, repeats and reorders nothing: the yielded lines,
    put end to end, are the bytes of the stream without the carriage
    returns and new lines. *)
Theorem lines_preserve_bytes (chunks : list Uint8Array) :
  concat (map fst (createLineReader chunks)) =
  removeTerminators (concat chunks).
Proof.
  rewrite createLineReader_logicalLines. unfold logicalLines.
  pose proof (splitBytes_concat (concat chunks) [] false) as H.
  destruct (splitBytes [] false (concat chunks)) as [out [pend d]].
  simpl in H. rewrite <- H, map_app, concat_app.
  destruct pend; simpl; now rewrite ?app_nil_r.
Qed.

Lemma splitBytes_line (l : list Z) (t : Terminator) (rest : list Z)
    (d : bool) :
  terminatorFree l ->
  (d && isNil l && isTermLF t) = false ->
  splitBytes [] d (l ++ terminatorBytes t ++ rest) =
  let '(out, final) := splitBytes [] (isTermCR t) rest in
  (reported l :: out, final).
Proof.
  intros Hl Hd. rewrite splitBytes_app.
  rewrite (splitBytes_no_terminator l [] d Hl). cbn [app].
  set (d0 := match l with [] => d | _ :: _ => false end).
  assert (Hflag : (d0 && isTermLF t) = false).
  { subst d0. destruct l; [|reflexivity].
    simpl in Hd. now rewrite andb_true_r in Hd. }
  unfold reported.
  destruct t, d0; try discriminate Hflag; clear Hflag;
    cbn [terminatorBytes app isTermCR];
    [ change (splitBytes l false (NewLine :: rest))
        with (let '(r, f) := splitBytes [] false rest in
              ((l, firstColon l) :: r, f))
    | change (splitBytes l true (CarriageReturn :: rest))
        with (let '(r, f) := splitBytes [] true rest in
              ((l, firstColon l) :: r, f))
    | change (splitBytes l false (CarriageReturn :: rest))
        with (let '(r, f) := splitBytes [] true rest in
              ((l, firstColon l) :: r, f))
    | change (splitBytes l true (CarriageReturn :: NewLine :: rest))
        with (let '(r, f) := splitBytes [] false rest in
              ((l, firstColon l) :: r, f))
    | change (splitBytes l false (CarriageReturn :: NewLine :: rest))
        with (let '(r, f) := splitBytes [] false rest in
              ((l, firstColon l) :: r, f)) ];
    match goal with
    | |- context [splitBytes [] ?x rest] =>
      destruct (splitBytes [] x rest); reflexivity
    end.
Qed.

Lemma splitBytes_serialize (ls : list (list Z * Terminator)) :
  forall (rest : list Z) (d : bool),
  Forall (fun l => terminatorFree (fst l)) ls ->
  unambiguous d ls = true ->
  exists d',
    splitBytes [] d (serializeLines ls ++ rest) =
    (let '(out, final) := splitBytes [] d' rest in
     (map (fun l => reported (fst l)) ls ++ out, final)) /\
    (ls = [] -> d' = d).
Proof.
  induction ls as [|[l t] ls IH]; intros rest d Hall Hu.
  - exists d. simpl. split; [now destruct (splitBytes [] d rest)|reflexivity].
  - inversion Hall as [|? ? Hl Hls]; subst. simpl in Hl.
    cbn [unambiguous] in Hu. apply andb_prop in Hu. destruct Hu as [Hu1 Hu2].
    apply negb_true_iff in Hu1.
    destruct (IH rest (isTermCR t) Hls Hu2) as (d' & Hd' & _).
    exists d'. split; [|discriminate].
    cbn [serializeLines]. rewrite <- !app_assoc.
    rewrite (splitBytes_line l t _ d Hl Hu1), Hd'.
    now destruct (splitBytes [] d' rest).
Qed.

Lemma logicalLines_serialize (ls : list (list Z * Terminator))
    (tail : list Z) :
  Forall (fun l => terminatorFree (fst l)) ls ->
  unambiguous false ls = true ->
  terminatorFree tail ->
  logicalLines (serializeLines ls ++ tail) =
  map (fun l => reported (fst l)) ls ++
  match tail with
  | [] => []
  | _ :: _ => [reported tail]
  end.
Proof.
  intros Hall Hu Htail. unfold logicalLines.
  destruct (splitBytes_serialize ls tail false Hall Hu) as (d' & -> & _).
  rewrite (splitBytes_no_terminator tail [] d' Htail). cbn [app].
  rewrite app_nil_r. reflexivity.
Qed.

(** Writing lines to the wire and splitting them again gives the lines
    back.  Whatever terminator ends each line (new line, carriage return
    or the pair), whatever bytes without terminator follow the last one,
    and however the stream is chunked, the splitter yields the lines in
    order, each with the offset of its first colon, and then the
    unterminated rest if it is not empty.  The one condition is that no
    line ended by a lone carriage return is followed by an empty line
    ended by a new line, which on the wire is the pair. *)
Theorem serialize_then_split
    (chunks : list Uint8Array) (ls : list (list Z * Terminator))
    (tail : list Z) :
  Forall (fun l => terminatorFree (fst l)) ls ->
  unambiguous false ls = true ->
  terminatorFree tail ->
  concat chunks = serializeLines ls ++ tail ->
  createLineReader chunks =
  map (fun l => reported (fst l)) ls ++
  match tail with
  | [] => []
  | _ :: _ => [reported tail]
  end.
Proof.
  intros Hall Hu Htail Hcat.
  rewrite createLineReader_logicalLines, Hcat.
  now apply logicalLines_serialize.
Qed.

Lemma serialize_then_split_witness :
  createLineReader [[105; 100; 58; 49; 13]; [10; 13; 97]; [10; 58; 98]] =
  [([105; 100; 58; 49], 2); ([], -1); ([97], -1); ([58; 98], 0)].
Proof.
  apply (serialize_then_split
           [[105; 100; 58; 49; 13]; [10; 13; 97]; [10; 58; 98]]
           [([105; 100; 58; 49], TermCRLF); ([], TermCR); ([97], TermLF)]
           [58; 98]).
  - repeat constructor.
  - reflexivity.
  - repeat constructor.
  - reflexivity.
Defined.

(** A flag left by a carriage return matters only to a new line that
    comes next. *)
Lemma splitBytes_flag_irrelevant (bs pend : list Z) (d : bool) :
  (d = true -> startsWithLF bs = false) ->
  fst (splitBytes pend d bs) = fst (splitBytes pend false bs) /\
  fst (snd (splitBytes pend d bs)) = fst (snd (splitBytes pend false bs)).
Proof.
  intros H. destruct d; [|now split]. specialize (H eq_refl).
  destruct bs as [|b bs]; [now split|].
  simpl in H. cbn [splitBytes andb]. rewrite H. now split.
Qed.

(** Streams compose at a line boundary.  When the bytes of the first
    chunks are empty or end on a terminator (and, if that is a carriage
    return, the bytes of the second chunks do not start with a new line),
    the lines of the chunks read one after the other are the lines of the
    first followed by the lines of the second. *)
Theorem createLineReader_app (chunks1 chunks2 : list Uint8Array) :
  concat chunks1 = [] \/ endsWithTerminator (concat chunks1) = true ->
  (endsWithCR (concat chunks1) = true ->
   startsWithLF (concat chunks2) = false) ->
  createLineReader (chunks1 ++ chunks2) =
  createLineReader chunks1 ++ createLineReader chunks2.
Proof.
  intros Hend Hcr.
  rewrite !createLineReader_logicalLines, concat_app.
  unfold logicalLines. rewrite splitBytes_app.
  pose proof (splitBytes_pending_end (concat chunks1) Hend) as Hp.
  pose proof (splitBytes_flag_end (concat chunks1)) as Hf.
  destruct (splitBytes [] false (concat chunks1)) as [out1 [pend1 d1]].
  simpl in Hp, Hf. subst pend1 d1.
  destruct (splitBytes_flag_irrelevant (concat chunks2) []
              (endsWithCR (concat chunks1)) Hcr) as [H1 H2].
  destruct (splitBytes [] (endsWithCR (concat chunks1)) (concat chunks2))
    as [out2 [pend2 d2]].
  destruct (splitBytes [] false (concat chunks2)) as [out2' [pend2' d2']].
  simpl in H1, H2. subst out2' pend2'.
  now rewrite app_nil_r, app_assoc.
Qed.

Lemma createLineReader_app_witness :
  createLineReader ([[97; 13]; [10]] ++ [[98; 58]; [99; 10; 100]]) =
  createLineReader [[97; 13]; [10]] ++
  createLineReader [[98; 58]; [99; 10; 100]].
Proof.
  apply createLineReader_app.
  - right. reflexivity.
  - discriminate.
Defined.

(** The state the reader keeps between chunks.  After any chunks the
    buffer is undefined when the stream so far is empty or ends on a
    terminator; otherwise it holds exactly the unterminated bytes after the
    last terminator, [position] stands at its end and [fieldLength] is the
    offset of its first colon.  The flag tells whether the last byte read
    was a carriage return. *)
Theorem reader_state_invariant
    (chunks : list Uint8Array) (pre tail : list Z) :
  concat chunks = pre ++ tail ->
  pre = [] \/ endsWithTerminator pre = true ->
  terminatorFree tail ->
  let st := snd (readChunks initialReader chunks) in
  discardTrailingNewline st = endsWithCR (concat chunks) /\
  match tail with
  | [] => buffer st = None
  | _ :: _ =>
    buffer st = Some tail /\ position st = len tail /\
    fieldLength st = firstColon tail
  end.
Proof.
  intros Hcat Hpre Htail st. subst st.
  pose proof (readChunks_spec chunks initialReader [] false Rep_initial) as H.
  pose proof (splitBytes_flag_end (concat chunks)) as Hf.
  assert (Hp : fst (snd (splitBytes [] false (concat chunks))) = tail).
  { rewrite Hcat, splitBytes_app.
    pose proof (splitBytes_pending_end pre Hpre) as Hp.
    destruct (splitBytes [] false pre) as [out1 [pend1 d1]].
    simpl in Hp. subst pend1.
    now rewrite (splitBytes_no_terminator tail [] d1 Htail). }
  destruct (splitBytes [] false (concat chunks)) as [out [pend d]].
  simpl in Hf, Hp. subst pend d.
  destruct H as (st & -> & [Hd Hb]). cbn [snd]. split; [exact Hd|].
  destruct tail; [exact Hb|]. destruct Hb as (H1 & H2 & H3 & _).
  now repeat split.
Qed.

Lemma reader_state_invariant_witness :
  let st := snd (readChunks initialReader [[97; 10; 98]; [58; 99]]) in
  discardTrailingNewline st = false /\
  buffer st = Some [98; 58; 99] /\ position st = 3 /\ fieldLength st = 1.
Proof.
  apply (reader_state_invariant [[97; 10; 98]; [58; 99]] [97; 10] [98; 58; 99]).
  - reflexivity.
  - right. reflexivity.
  - repeat constructor.
Defined.

Lemma concat_all_nil (chunks : list Uint8Array) :
  Forall (fun c => c = []) chunks -> concat chunks = [].
Proof.
  induction 1 as [|c chunks Hc _ IH]; [reflexivity|].
  subst c. exact IH.
Qed.

(** ** The stages together *)

(** Chunk boundaries carry no meaning for the later stages either: the
    field parts and the messages of a chunked stream are those of the
    stream in one chunk. *)
Theorem stages_chunk_invariance (chunks : list Uint8Array) :
  readEventMessagePart chunks = readEventMessagePart [concat chunks] /\
  createEventMessageReader chunks = createEventMessageReader [concat chunks].
Proof.
  unfold createEventMessageReader, readEventMessagePart.
  rewrite !createLineReader_logicalLines. cbn [concat].
  now rewrite app_nil_r.
Qed.

(** A source that delivers nothing but empty chunks (or no chunk at all)
    yields no line and no part, and a single all-default message. *)
Theorem empty_stream (chunks : list Uint8Array) :
  Forall (fun c => c = []) chunks ->
  createLineReader chunks = [] /\
  readEventMessagePart chunks = [] /\
  createEventMessageReader chunks = [freshMessage].
Proof.
  intros H. apply concat_all_nil in H.
  unfold createEventMessageReader, readEventMessagePart.
  rewrite createLineReader_logicalLines, H. now repeat split.
Qed.

Lemma empty_stream_witness :
  createLineReader [[]; []; []] = [] /\
  readEventMessagePart [[]; []; []] = [] /\
  createEventMessageReader [[]; []; []] = [freshMessage].
Proof.
  apply empty_stream. repeat constructor.
Defined.

(** ** Counting lines, parts and messages *)

Lemma switchField_shape (field value : JSString) :
  (length (switchField field value) <= 1)%nat /\
  countEmpty (switchField field value) = 0%nat.
Proof.
  unfold switchField.
  destruct (string_eqb field (str "data")); [split; simpl; auto|].
  destruct (string_eqb field (str "event")); [split; simpl; auto|].
  destruct (string_eqb field (str "id")); [split; simpl; auto|].
  destruct (string_eqb field (str "retry")); [|split; simpl; auto].
  cbv zeta. destruct (negb (isNaN (parseInt value))); split; simpl; auto.
Qed.

Lemma partsOfLine_shape (l : Line) :
  (length (partsOfLine l) <= 1)%nat /\
  countEmpty (partsOfLine l) = (if isNil (fst l) then 1 else 0)%nat.
Proof.
  destruct l as [line fl]. unfold partsOfLine. cbn [fst].
  destruct line as [|b line].
  - simpl. auto.
  - rewrite len_pos_nonempty by discriminate. cbn [isNil].
    destruct (fl >? 0); [apply switchField_shape | simpl; auto].
Qed.

Lemma countEmpty_app (p q : list EventSourceMessagePart) :
  countEmpty (p ++ q) = (countEmpty p + countEmpty q)%nat.
Proof. unfold countEmpty. now rewrite filter_app, length_app. Qed.

Lemma countEmpty_flat_map (lines : list Line) :
  countEmpty (flat_map partsOfLine lines) = countEmptyLines lines.
Proof.
  unfold countEmptyLines.
  induction lines as [|l lines IH]; [reflexivity|].
  cbn [flat_map filter]. rewrite countEmpty_app, IH.
  destruct (partsOfLine_shape l) as [_ ->].
  now destruct (isNil (fst l)).
Qed.

(** The generator always yields at least one message: it yields one
    message for each zero-length line of the stream, and one more at the
    end. *)
Theorem message_count (chunks : list Uint8Array) :
  length (createEventMessageReader chunks) =
  S (countEmptyLines (createLineReader chunks)).
Proof.
  unfold createEventMessageReader. rewrite assemble_values.
  rewrite messagesOf_last, length_app, Nat.add_comm. cbn [length Nat.add].
  f_equal. unfold readEventMessagePart.
  rewrite <- countEmpty_flat_map.
  generalize (flat_map partsOfLine (createLineReader chunks)).
  intros parts. generalize freshMessage.
  induction parts as [|part parts IH]; intros m; [reflexivity|].
  rewrite messagesOf_cons.
  assert (Hne : messagesOf (applyPart m part) parts <> []).
  { rewrite messagesOf_last. now destruct (removelast _). }
  change (part :: parts) with ([part] ++ parts). rewrite countEmpty_app.
  destruct part; cbn [isPartEmpty app];
    try (rewrite IH; reflexivity).
  change (m :: messagesOf (applyPart m PartEmpty) parts)
    with ([m] ++ messagesOf (applyPart m PartEmpty) parts).
  rewrite removelast_app by exact Hne. cbn [app length]. now rewrite IH.
Qed.

(** A line yields at most one part, so there are never more parts than
    lines; and the [Empty] parts are as many as the zero-length lines. *)
Theorem part_count (chunks : list Uint8Array) :
  (length (readEventMessagePart chunks) <=
   length (createLineReader chunks))%nat /\
  countEmpty (readEventMessagePart chunks) =
  countEmptyLines (createLineReader chunks).
Proof.
  unfold readEventMessagePart. split; [|apply countEmpty_flat_map].
  induction (createLineReader chunks) as [|l lines IH]; [reflexivity|].
  cbn [flat_map length]. rewrite length_app.
  destruct (partsOfLine_shape l) as [H _]. lia.
Qed.

(** ** A block of parts *)

Lemma lastValue_snoc {A : Type} (sel : EventSourceMessagePart -> option A)
    (default : A) (parts : list EventSourceMessagePart)
    (p : EventSourceMessagePart) :
  lastValue sel default (parts ++ [p]) =
  match sel p with
  | Some v => v
  | None => lastValue sel default parts
  end.
Proof.
  unfold lastValue. rewrite rev_app_distr. cbn [rev app flat_map].
  now destruct (sel p).
Qed.

Lemma fold_block_fields (parts : list EventSourceMessagePart)
    (m : EventSourceMessage) :
  Forall (fun p => isPartEmpty p = false) parts ->
  id (fold_left applyPart parts m) = lastValue selId (id m) parts /\
  event (fold_left applyPart parts m) = lastValue selEvent (event m) parts /\
  retry (fold_left applyPart parts m) = lastValue selRetry (retry m) parts.
Proof.
  induction parts as [|p parts IH] using rev_ind; intros H.
  - now repeat split.
  - apply Forall_app in H. destruct H as [H Hp].
    inversion Hp as [|? ? Hp' _]; subst.
    destruct (IH H) as (H1 & H2 & H3).
    rewrite fold_left_app, !lastValue_snoc. cbn [fold_left].
    destruct p; try discriminate Hp'; cbn; auto.
Qed.

Lemma fold_block_data (parts : list EventSourceMessagePart) :
  Forall (fun p => isPartEmpty p = false) parts ->
  forall m,
  data (fold_left applyPart parts m) =
  match data m with
  | [] => joinData (dataValues parts)
  | _ :: _ =>
    data m ++ concat (map (fun w => NewLine :: w) (dataValues parts))
  end.
Proof.
  unfold dataValues.
  induction 1 as [|p parts Hp _ IH]; intros m.
  - simpl. destruct (data m); [reflexivity | now rewrite app_nil_r].
  - cbn [fold_left flat_map]. rewrite IH.
    destruct p; try discriminate Hp; cbn [applyPart data app]; try reflexivity.
    destruct (data m) as [|c d]; cbn [appendData].
    + destruct value; reflexivity.
    + cbn [app concat map]. now rewrite <- !app_assoc.
Qed.

Lemma fold_block (parts : list EventSourceMessagePart) :
  Forall (fun p => isPartEmpty p = false) parts ->
  fold_left applyPart parts freshMessage = blockMessage parts.
Proof.
  intros H. destruct (fold_block_fields parts freshMessage H) as (H1 & H2 & H3).
  pose proof (fold_block_data parts H freshMessage) as H4.
  destruct (fold_left applyPart parts freshMessage) as [i e d r].
  simpl in *. unfold blockMessage. congruence.
Qed.

Lemma messagesOf_block (parts : list EventSourceMessagePart) : forall m,
  Forall (fun p => isPartEmpty p = false) parts ->
  messagesOf m parts = [fold_left applyPart parts m].
Proof.
  induction parts as [|p parts IH]; intros m H; [reflexivity|].
  inversion H as [|? ? Hp Hps]; subst.
  rewrite messagesOf_cons, Hp. cbn [app fold_left]. now apply IH.
Qed.

(** Between two [Empty] parts the last write wins.  For a block of parts
    without [Empty] that follows an [Empty], the message in progress
    holds the value of the last [Id], of the last [Event] and of the last
    [Retry] part of the block (the default when there is none) and the
    [Data] values of the block joined, whatever came before the block;
    and an [Empty] after the block emits exactly that message. *)
Theorem block_last_write_wins
    (before block : list EventSourceMessagePart) :
  Forall (fun p => isPartEmpty p = false) block ->
  currentMessage (afterParts (before ++ PartEmpty :: block)) =
    blockMessage block /\
  map snd (fst (assemble (before ++ PartEmpty :: block ++ [PartEmpty]))) =
    map snd (fst (assemble before)) ++ [blockMessage block; freshMessage].
Proof.
  intros H. split.
  - rewrite currentMessage_afterParts, fold_left_app. cbn [fold_left applyPart].
    now apply fold_block.
  - rewrite !assemble_values, !messagesOf_Empty.
    rewrite (messagesOf_block block freshMessage H), (fold_block block H).
    reflexivity.
Qed.

Lemma block_last_write_wins_witness :
  currentMessage
    (afterParts ([PartId [120]] ++ PartEmpty ::
                 [PartEvent [97]; PartData [49]; PartRetry 5;
                  PartEvent [98]; PartData [50]])) =
  {| id := []; event := [98]; data := [49; 10; 50];
     retry := Some (NumInt 5) |}.
Proof.
  apply (block_last_write_wins [PartId [120]]
           [PartEvent [97]; PartData [49]; PartRetry 5;
            PartEvent [98]; PartData [50]]).
  repeat constructor.
Defined.

(** ** Lines that are ignored *)

Lemma partsOfLine_comment (text : list Z) :
  partsOfLine (reported (Colon :: text)) = [].
Proof.
  unfold reported, partsOfLine. cbn [firstColon].
  change (Colon =? Colon) with true. cbn iota.
  now rewrite len_pos_nonempty by discriminate.
Qed.

(** The lines of a stream with a line put in at a line boundary. *)
Lemma logicalLines_insert (a c b : list Z) (t : Terminator) :
  a = [] \/ endsWithTerminator a = true ->
  (endsWithCR a = true -> startsWithLF b = false) ->
  (isTermCR t = true -> startsWithLF b = false) ->
  terminatorFree c ->
  (endsWithCR a && isNil c && isTermLF t) = false ->
  exists before after,
    logicalLines (a ++ b) = before ++ after /\
    logicalLines (a ++ c ++ terminatorBytes t ++ b) =
      before ++ reported c :: after.
Proof.
  intros Ha Hab Htb Hc Hamb. unfold logicalLines.
  rewrite !splitBytes_app.
  pose proof (splitBytes_pending_end a Ha) as Hp.
  pose proof (splitBytes_flag_end a) as Hf.
  destruct (splitBytes [] false a) as [out1 [pend1 d1]].
  simpl in Hp, Hf. subst pend1 d1.
  rewrite (splitBytes_line c t b (endsWithCR a) Hc Hamb).
  destruct (splitBytes_flag_irrelevant b [] (endsWithCR a) Hab) as [H1 H2].
  destruct (splitBytes_flag_irrelevant b [] (isTermCR t) Htb) as [H3 H4].
  destruct (splitBytes [] (endsWithCR a) b) as [o1 [p1 f1]].
  destruct (splitBytes [] (isTermCR t) b) as [o2 [p2 f2]].
  destruct (splitBytes [] false b) as [o [p f]].
  simpl in H1, H2, H3, H4. subst o1 p1 o2 p2.
  exists out1, (o ++ match p with [] => [] | _ :: _ => [(p, firstColon p)] end).
  split; now rewrite <- app_assoc.
Qed.

(** A comment line changes nothing.  A line that starts with a colon, put
    in at a line boundary of a stream with any of the three terminators,
    leaves the field parts and the messages as they are, however the two
    streams are chunked.  (The conditions on [b] keep a carriage return
    before it from pairing with a new line at its start.) *)
Theorem comment_line_ignored
    (chunks1 chunks2 : list Uint8Array) (a text b : list Z)
    (t : Terminator) :
  a = [] \/ endsWithTerminator a = true ->
  (endsWithCR a = true -> startsWithLF b = false) ->
  (isTermCR t = true -> startsWithLF b = false) ->
  terminatorFree text ->
  concat chunks1 = a ++ (Colon :: text) ++ terminatorBytes t ++ b ->
  concat chunks2 = a ++ b ->
  readEventMessagePart chunks1 = readEventMessagePart chunks2 /\
  createEventMessageReader chunks1 = createEventMessageReader chunks2.
Proof.
  intros Ha Hab Htb Htext H1 H2.
  assert (Hparts : readEventMessagePart chunks1 = readEventMessagePart chunks2).
  { unfold readEventMessagePart.
    rewrite !createLineReader_logicalLines, H1, H2.
    assert (Hc : terminatorFree (Colon :: text)) by (now constructor).
    destruct (logicalLines_insert a (Colon :: text) b t Ha Hab Htb Hc)
      as (before & after & -> & ->).
    { cbn [isNil]. now rewrite andb_false_r. }
    rewrite !flat_map_app. cbn [flat_map].
    now rewrite partsOfLine_comment. }
  split; [exact Hparts|].
  unfold createEventMessageReader. now rewrite Hparts.
Qed.

(** The condition on a lone carriage return is needed: a comment ended by
    one, put before a stream that starts with a new line, takes that new
    line as the second half of the pair, and the blank line is gone. *)
Example comment_CR_swallows_blank_line :
  createEventMessageReader [NL ++ str "data: y" ++ NL ++ NL] =
    [freshMessage;
     {| id := []; event := []; data := str "y"; retry := None |};
     freshMessage] /\
  createEventMessageReader
    [str ":x" ++ [CarriageReturn] ++ NL ++ str "data: y" ++ NL ++ NL] =
    [{| id := []; event := []; data := str "y"; retry := None |};
     freshMessage].
Proof. split; reflexivity. Qed.

Lemma comment_line_ignored_witness :
  readEventMessagePart [str "data: a" ++ NL ++ str ": ping"; NL ++ NL] =
    readEventMessagePart [str "data: a" ++ NL ++ NL] /\
  createEventMessageReader [str "data: a" ++ NL ++ str ": ping"; NL ++ NL] =
    createEventMessageReader [str "data: a" ++ NL ++ NL].
Proof.
  apply (comment_line_ignored _ _ (str "data: a" ++ NL) (str " ping") NL
           TermLF).
  - right. reflexivity.
  - discriminate.
  - discriminate.
  - repeat constructor.
  - reflexivity.
  - reflexivity.
Defined.

(** ** Writing fields and reading them back *)

Lemma utf8_run_ascii (bs : list Z) :
  Forall (fun b => 0 <= b <= 127) bs -> utf8_run utf8_idle bs = bs.
Proof.
  induction 1 as [|b bs Hb _ IH]; [reflexivity|].
  cbn [utf8_run utf8_idle]. change (0 =? 0) with true. cbn iota.
  unfold utf8_lead. destruct (Z.leb_spec b 0x7F); [|lia].
  cbn [app]. fold utf8_idle. now rewrite IH.
Qed.

(** The decoder leaves ASCII text as it is. *)
Lemma decode_ascii (bs : list Z) : isAscii bs -> decode bs = bs.
Proof.
  intros H. unfold decode. rewrite (utf8_run_ascii bs H).
  destruct H as [|b bs Hb _]; [reflexivity|].
  unfold BOM. destruct (Z.eqb_spec b 0xFEFF); [lia|reflexivity].
Qed.

Lemma firstColon_app (name rest : list Z) :
  ~ In Colon name -> firstColon (name ++ Colon :: rest) = len name.
Proof.
  induction name as [|c name IH]; intros H.
  - simpl. reflexivity.
  - cbn [app firstColon]. rewrite len_cons.
    destruct (Z.eqb_spec c Colon) as [E|E]; [exfalso; apply H; now left|].
    rewrite IH by (intros Hin; apply H; now right).
    pose proof (len_nonneg name).
    destruct (Z.eqb_spec (len name) (-1)); lia.
Qed.

(** The parts of the line [name: value], for a name in ASCII without
    colon. *)
Lemma partsOfLine_field (name v : list Z) :
  name <> [] -> ~ In Colon name -> isAscii name -> isAscii v ->
  partsOfLine (reported (name ++ Colon :: Space :: v)) = switchField name v.
Proof.
  intros Hne Hcolon Hname Hv. unfold reported, partsOfLine.
  rewrite firstColon_app by exact Hcolon.
  rewrite len_pos_nonempty by (now destruct name).
  assert (Hpos : (len name >? 0) = true).
  { destruct name; [contradiction|]. rewrite len_cons.
    pose proof (len_nonneg name). apply Z.gtb_lt. lia. }
  rewrite Hpos.
  destruct (fieldOf_valueOf name (Space :: v)) as [-> ->].
  cbn [stripSpace]. change (Space =? Space) with true. cbn iota.
  now rewrite !decode_ascii.
Qed.

Lemma logicalLines_one (l : list Z) :
  terminatorFree l -> logicalLines (l ++ NL) = [reported l].
Proof.
  intros H.
  pose proof (logicalLines_serialize [(l, TermLF)] [] ) as L.
  cbn [serializeLines terminatorBytes map fst app] in L.
  rewrite !app_nil_r in L. apply L.
  - now repeat constructor.
  - reflexivity.
  - constructor.
Qed.

(** A field written as [name: value] and a new line reads back as the
    part of that name with that value, for a value in ASCII without
    terminator (leading spaces included, the one space after the colon
    being the separator), however the line is chunked. *)
Theorem field_line_round_trip (chunks : list Uint8Array) (v : list Z) :
  isAscii v -> terminatorFree v ->
  (concat chunks = str "data: " ++ v ++ NL ->
   readEventMessagePart chunks = [PartData v]) /\
  (concat chunks = str "event: " ++ v ++ NL ->
   readEventMessagePart chunks = [PartEvent v]) /\
  (concat chunks = str "id: " ++ v ++ NL ->
   readEventMessagePart chunks = [PartId v]).
Proof.
  intros Ha Ht.
  assert (Hname : forall name,
    In name [str "data"; str "event"; str "id"] ->
    concat chunks = name ++ Colon :: Space :: v ++ NL ->
    readEventMessagePart chunks = switchField name v).
  { intros name Hin Hcat. unfold readEventMessagePart.
    rewrite createLineReader_logicalLines, Hcat.
    change (name ++ Colon :: Space :: v ++ NL)
      with (name ++ (Colon :: Space :: v) ++ NL).
    assert (Hplain : name <> [] /\ ~ In Colon name /\ isAscii name /\
                     terminatorFree name).
    { destruct Hin as [<-|[<-|[<-|[]]]];
        (split; [discriminate|]; split;
         [vm_compute; intuition discriminate|]; split;
         [apply Forall_forall; intros x Hx; vm_compute in Hx;
          intuition (subst; lia)
         | repeat constructor]). }
    destruct Hplain as (H1 & H2 & H3 & H4).
    rewrite app_assoc, logicalLines_one.
    - cbn [flat_map]. rewrite app_nil_r. now apply partsOfLine_field.
    - apply Forall_app. split; [exact H4|]. repeat constructor. exact Ht. }
  repeat split; intros Hcat.
  - apply (Hname (str "data")); [simpl; auto | exact Hcat].
  - apply (Hname (str "event")); [simpl; auto | exact Hcat].
  - apply (Hname (str "id")); [simpl; auto | exact Hcat].
Qed.

Lemma field_line_round_trip_witness :
  readEventMessagePart [str "data:"; str "  x: y"; NL] =
  [PartData (str " x: y")].
Proof.
  apply (proj1 (field_line_round_trip [str "data:"; str "  x: y"; NL]
                  (str " x: y")
                  ltac:(apply Forall_forall; intros x Hx; vm_compute in Hx;
                        intuition (subst; lia))
                  ltac:(repeat constructor))).
  reflexivity.
Defined.

(** ** Writing a message and reading it back *)

Lemma logicalLines_cons_line (l rest : list Z) :
  terminatorFree l ->
  logicalLines (l ++ NL ++ rest) = reported l :: logicalLines rest.
Proof.
  intros H. unfold logicalLines.
  change (l ++ NL ++ rest) with (l ++ terminatorBytes TermLF ++ rest).
  rewrite (splitBytes_line l TermLF rest false H eq_refl). cbn [isTermCR].
  now destruct (splitBytes [] false rest) as [out [pend d]].
Qed.

Lemma parts_named_line (name v rest : list Z) :
  In name [str "data"; str "event"; str "id"] ->
  isAscii v -> terminatorFree v ->
  flat_map partsOfLine
    (logicalLines (name ++ Colon :: Space :: v ++ NL ++ rest)) =
  switchField name v ++ flat_map partsOfLine (logicalLines rest).
Proof.
  intros Hin Ha Ht.
  assert (Hplain : name <> [] /\ ~ In Colon name /\ isAscii name /\
                   terminatorFree name).
  { destruct Hin as [<-|[<-|[<-|[]]]];
      (split; [discriminate|]; split;
       [vm_compute; intuition discriminate|]; split;
       [apply Forall_forall; intros x Hx; vm_compute in Hx;
        intuition (subst; lia)
       | repeat constructor]). }
  destruct Hplain as (H1 & H2 & H3 & H4).
  change (name ++ Colon :: Space :: v ++ NL ++ rest)
    with (name ++ (Colon :: Space :: v) ++ NL ++ rest).
  rewrite app_assoc, logicalLines_cons_line.
  - cbn [flat_map]. now rewrite partsOfLine_field.
  - apply Forall_app. split; [exact H4|]. repeat constructor. exact Ht.
Qed.

Lemma parts_data_lines (ds : list (list Z)) (rest : list Z) :
  Forall (fun d => isAscii d /\ terminatorFree d) ds ->
  flat_map partsOfLine
    (logicalLines
       (concat (map (fun d => str "data: " ++ d ++ NL) ds) ++ rest)) =
  map PartData ds ++ flat_map partsOfLine (logicalLines rest).
Proof.
  induction 1 as [|d ds [Ha Ht] _ IH]; [reflexivity|].
  cbn [map concat]. rewrite <- !app_assoc.
  change (str "data: " ++ d ++ NL ++
          concat (map (fun d0 => str "data: " ++ d0 ++ NL) ds) ++ rest)
    with (str "data" ++ Colon :: Space :: d ++ NL ++
          concat (map (fun d0 => str "data: " ++ d0 ++ NL) ds) ++ rest).
  rewrite (parts_named_line (str "data")) by (simpl; auto).
  now rewrite IH.
Qed.

Lemma fold_data_keeps (vs : list JSString) : forall m,
  id (fold_left applyPart (map PartData vs) m) = id m /\
  event (fold_left applyPart (map PartData vs) m) = event m /\
  retry (fold_left applyPart (map PartData vs) m) = retry m.
Proof.
  induction vs as [|v vs IH]; intros m; [now repeat split|].
  cbn [map fold_left]. destruct (IH (applyPart m (PartData v))) as (-> & -> & ->).
  now repeat split.
Qed.

(** An event written to the wire as an id line, an event line, one data
    line for each data value and a blank line, all in ASCII without
    terminators, reads back, however it is chunked, as the message with
    that id and event and with the data values joined by new lines
    (empty values at the front leave no trace), followed by the
    all-default message that the end of the stream emits. *)
Theorem message_round_trip
    (chunks : list Uint8Array) (i e : list Z) (ds : list (list Z)) :
  isAscii i -> terminatorFree i ->
  isAscii e -> terminatorFree e ->
  Forall (fun d => isAscii d /\ terminatorFree d) ds ->
  concat chunks = serializeMessage i e ds ->
  createEventMessageReader chunks =
  [{| id := i; event := e; data := joinData ds; retry := None |};
   freshMessage].
Proof.
  intros Hi Hit He Het Hds Hcat.
  assert (Hparts : readEventMessagePart chunks =
                   (PartId i :: PartEvent e :: map PartData ds) ++
                   PartEmpty :: []).
  { unfold readEventMessagePart.
    rewrite createLineReader_logicalLines, Hcat. unfold serializeMessage.
    change (str "id: " ++ i ++ NL ++ str "event: " ++ e ++ NL ++
            concat (map (fun d => str "data: " ++ d ++ NL) ds) ++ NL)
      with (str "id" ++ Colon :: Space :: i ++ NL ++
            str "event" ++ Colon :: Space :: e ++ NL ++
            concat (map (fun d => str "data: " ++ d ++ NL) ds) ++ NL).
    rewrite (parts_named_line (str "id")) by (simpl; auto).
    rewrite (parts_named_line (str "event")) by (simpl; auto).
    rewrite (parts_data_lines ds NL Hds). reflexivity. }
  unfold createEventMessageReader.
  rewrite Hparts, assemble_values, messagesOf_Empty.
  rewrite messagesOf_block
    by (constructor; [reflexivity|]; constructor; [reflexivity|];
        apply Forall_forall; intros p Hp; apply in_map_iff in Hp;
        destruct Hp as (d & <- & _); reflexivity).
  cbn [fold_left applyPart app messagesOf id event data retry freshMessage].
  f_equal.
  set (m := {| id := i; event := e; data := []; retry := None |}).
  destruct (fold_data_keeps ds m) as (H1 & H2 & H3).
  pose proof (fold_data_empty ds m eq_refl) as H4.
  destruct (fold_left applyPart (map PartData ds) m) as [i' e' d' r'].
  simpl in *. congruence.
Qed.

(** Side conditions on literals. *)
Ltac ascii_literal :=
  apply Forall_forall; intros ? ?;
  match goal with H : In _ _ |- _ => vm_compute in H end;
  intuition (subst; lia).

Lemma message_round_trip_witness :
  createEventMessageReader
    [str "id: 7"; NL ++ str "event: add" ++ NL ++ str "data: a" ++ NL;
     str "data: b" ++ NL ++ NL] =
  [{| id := str "7"; event := str "add";
      data := joinData [str "a"; str "b"]; retry := None |};
   freshMessage].
Proof.
  apply (message_round_trip _ (str "7") (str "add") [str "a"; str "b"]).
  - ascii_literal.
  - repeat constructor.
  - ascii_literal.
  - repeat constructor.
  - constructor; [split; [ascii_literal | repeat constructor]|].
    constructor; [split; [ascii_literal | repeat constructor]|].
    constructor.
  - reflexivity.
Defined.

(** ** Lines are yielded as soon as they end *)

Lemma readChunks_app (chunks1 : list Uint8Array) : forall chunks2 st,
  readChunks st (chunks1 ++ chunks2) =
  let '(out1, st1) := readChunks st chunks1 in
  let '(out2, st2) := readChunks st1 chunks2 in
  (out1 ++ out2, st2).
Proof.
  induction chunks1 as [|arr chunks1 IH]; intros chunks2 st.
  - simpl. now destruct (readChunks st chunks2).
  - cbn [app readChunks]. destruct (onChunk st arr) as [lines st'].
    rewrite IH. destruct (readChunks st' chunks1) as [out1 st1].
    destruct (readChunks st1 chunks2) as [out2 st2].
    now rewrite app_assoc.
Qed.

(** The reader does not hold a finished line back.  Once the chunks read
    so far contain a terminator, the line it ends has been yielded (a
    carriage return ends its line at once, without waiting for the byte
    after it): the lines yielded before the end of the stream are as many
    as the terminators read, and whatever chunks follow, these lines stay
    the first of the whole output. *)
Theorem lines_yielded_promptly (chunks1 chunks2 : list Uint8Array) :
  let now := fst (readChunks initialReader chunks1) in
  length now = countTerminators false (concat chunks1) /\
  exists later, createLineReader (chunks1 ++ chunks2) = now ++ later.
Proof.
  intros now. subst now. split.
  - pose proof (readChunks_spec chunks1 initialReader [] false Rep_initial) as H.
    pose proof (splitBytes_count (concat chunks1) [] false) as Hc.
    destruct (splitBytes [] false (concat chunks1)) as [out [pend d]].
    destruct H as (st & -> & _). exact Hc.
  - unfold createLineReader. rewrite readChunks_app.
    destruct (readChunks initialReader chunks1) as [out1 st1].
    destruct (readChunks st1 chunks2) as [out2 st2].
    cbn [fst]. exists (out2 ++ flushReader st2). now rewrite app_assoc.
Qed.

(** ** Blank lines *)

Lemma logicalLines_blank (n : nat) :
  logicalLines (repeat NewLine n) = repeat (reported []) n.
Proof.
  induction n as [|n IH]; [reflexivity|].
  cbn [repeat].
  change (NewLine :: repeat NewLine n) with ([] ++ NL ++ repeat NewLine n).
  rewrite logicalLines_cons_line by constructor. now rewrite IH.
Qed.

Lemma messagesOf_blank (n : nat) :
  messagesOf freshMessage (repeat PartEmpty n) = repeat freshMessage (S n).
Proof.
  induction n as [|n IH]; [reflexivity|].
  cbn [repeat messagesOf]. now rewrite IH.
Qed.

(** Every blank line emits a message, content or not: a stream of [n] new
    lines and nothing else yields [n + 1] all-default messages. *)
Theorem blank_lines_emit_defaults (chunks : list Uint8Array) (n : nat) :
  concat chunks = repeat NewLine n ->
  createEventMessageReader chunks = repeat freshMessage (S n).
Proof.
  intros H. unfold createEventMessageReader, readEventMessagePart.
  rewrite createLineReader_logicalLines, H, logicalLines_blank.
  rewrite assemble_values, <- messagesOf_blank. f_equal. clear H.
  induction n as [|n IH]; [reflexivity|].
  cbn [repeat flat_map]. rewrite IH. reflexivity.
Qed.

Lemma blank_lines_emit_defaults_witness :
  createEventMessageReader [[10]; []; [10; 10]] =
  [freshMessage; freshMessage; freshMessage; freshMessage].
Proof.
  apply (blank_lines_emit_defaults [[10]; []; [10; 10]] 3).
  reflexivity.
Defined.

(** ** A byte order mark *)

(** A byte order mark before the first field name does no harm: the
    decoder takes it off the field name, so the line still gives its
    part. *)
Theorem bom_before_field (chunks : list Uint8Array) (v : list Z) :
  isAscii v -> terminatorFree v ->
  (concat chunks = utf8BOM ++ str "data: " ++ v ++ NL ->
   readEventMessagePart chunks = [PartData v]) /\
  (concat chunks = utf8BOM ++ str "event: " ++ v ++ NL ->
   readEventMessagePart chunks = [PartEvent v]) /\
  (concat chunks = utf8BOM ++ str "id: " ++ v ++ NL ->
   readEventMessagePart chunks = [PartId v]).
Proof.
  intros Ha Ht.
  assert (Hname : forall name,
    In name [str "data"; str "event"; str "id"] ->
    concat chunks = (utf8BOM ++ name) ++ Colon :: Space :: v ++ NL ->
    readEventMessagePart chunks = switchField name v).
  { intros name Hin Hcat. unfold readEventMessagePart.
    rewrite createLineReader_logicalLines, Hcat.
    assert (Hplain : ~ In Colon (utf8BOM ++ name) /\
                     terminatorFree (utf8BOM ++ name) /\
                     decode (utf8BOM ++ name) = name).
    { destruct Hin as [<-|[<-|[<-|[]]]];
        (split; [vm_compute; intuition discriminate|]; split;
         [repeat constructor | reflexivity]). }
    destruct Hplain as (H1 & H2 & H3).
    change ((utf8BOM ++ name) ++ Colon :: Space :: v ++ NL)
      with ((utf8BOM ++ name) ++ (Colon :: Space :: v) ++ NL).
    rewrite app_assoc, logicalLines_one.
    - cbn [flat_map]. rewrite app_nil_r. unfold reported, partsOfLine.
      rewrite firstColon_app by exact H1.
      rewrite len_pos_nonempty by discriminate.
      assert (Hpos : (len (utf8BOM ++ name) >? 0) = true).
      { rewrite len_app. pose proof (len_nonneg name).
        apply Z.gtb_lt. change (len utf8BOM) with 3. lia. }
      rewrite Hpos.
      destruct (fieldOf_valueOf (utf8BOM ++ name) (Space :: v)) as [-> ->].
      cbn [stripSpace]. change (Space =? Space) with true. cbn iota.
      now rewrite H3, decode_ascii.
    - apply Forall_app. split; [exact H2|]. repeat constructor. exact Ht. }
  repeat split; intros Hcat.
  - apply (Hname (str "data")); [simpl; auto | exact Hcat].
  - apply (Hname (str "event")); [simpl; auto | exact Hcat].
  - apply (Hname (str "id")); [simpl; auto | exact Hcat].
Qed.

Lemma bom_before_field_witness :
  readEventMessagePart [[0xEF; 0xBB]; [0xBF] ++ str "id: 42" ++ NL] =
  [PartId (str "42")].
Proof.
  apply (proj2 (proj2 (bom_before_field
                         [[0xEF; 0xBB]; [0xBF] ++ str "id: 42" ++ NL]
                         (str "42") ltac:(ascii_literal)
                         ltac:(repeat constructor)))).
  reflexivity.
Defined.

(** ** The three terminators *)

(** C5. The three terminators end a line identically, and the pair counts
    once.  First, for any bytes [p] before (empty or ending on a
    terminator), any line [l] without terminator, any of the three
    terminators [t] and any bytes [s] after, however the stream is
    chunked: the lines yielded are those of [p], then [l] exactly once
    with the offset of its first colon, then those of [s]; so a carriage
    return with the new line after it ends one line and yields no empty
    line of its own, also when the two bytes come in different chunks.
    (A lone carriage return must not be followed by a new line at the start
    of [s], nor a new line alone follow a carriage return that ends [p]:
    each would be the pair.)  Second, in any context [p], [s], the stream
    with the pair yields the same lines as the stream with a single new
    line, and so does the stream with a lone carriage return. *)
Theorem terminators_equivalent :
  (forall (chunks : list Uint8Array) (p l s : list Z) (t : Terminator),
     p = [] \/ endsWithTerminator p = true ->
     terminatorFree l ->
     (endsWithCR p && isNil l && isTermLF t) = false ->
     (isTermCR t = true -> startsWithLF s = false) ->
     concat chunks = p ++ l ++ terminatorBytes t ++ s ->
     createLineReader chunks =
       createLineReader [p] ++ (l, firstColon l) :: createLineReader [s]) /\
  (forall (p s : list Z) (chunksCRLF chunksLF chunksCR : list Uint8Array),
     endsWithCR p = false ->
     concat chunksCRLF = p ++ [CarriageReturn; NewLine] ++ s ->
     concat chunksLF = p ++ [NewLine] ++ s ->
     concat chunksCR = p ++ [CarriageReturn] ++ s ->
     createLineReader chunksCRLF = createLineReader chunksLF /\
     (startsWithLF s = false ->
      createLineReader chunksCR = createLineReader chunksLF)).
Proof.
  split.
  - intros chunks p l s t Hp Hl Hamb Hs Hcat.
    rewrite !createLineReader_logicalLines, Hcat. cbn [concat].
    rewrite !app_nil_r. unfold logicalLines. rewrite splitBytes_app.
    pose proof (splitBytes_pending_end p Hp) as Hpend.
    pose proof (splitBytes_flag_end p) as Hflag.
    destruct (splitBytes [] false p) as [out1 [pend1 d1]].
    simpl in Hpend, Hflag. subst pend1 d1.
    rewrite (splitBytes_line l t s (endsWithCR p) Hl Hamb).
    destruct (splitBytes_flag_irrelevant s [] (isTermCR t) Hs) as [H1 H2].
    destruct (splitBytes [] (isTermCR t) s) as [o2 [p2 f2]].
    destruct (splitBytes [] false s) as [o [q f]].
    simpl in H1, H2. subst o2 p2. unfold reported.
    now rewrite app_nil_r, <- app_assoc.
  - intros p s chunksCRLF chunksLF chunksCR Hp H1 H2 H3.
    rewrite !createLineReader_logicalLines, H1, H2, H3.
    unfold logicalLines. rewrite !splitBytes_app.
    pose proof (splitBytes_flag_end p) as Hflag. rewrite Hp in Hflag.
    destruct (splitBytes [] false p) as [out [pend d]]. simpl in Hflag.
    subst d. cbn [app]. rewrite splitBytes_CRLF. split; [reflexivity|].
    intros Hs. destruct s as [|b s]; [reflexivity|].
    now rewrite (splitBytes_CR pend b s Hs).
Qed.

Lemma terminators_equivalent_witness :
  createLineReader [[120; 10; 97; 58; 13]; [10; 98]] =
    createLineReader [[120; 10]] ++ ([97; 58], 1) :: createLineReader [[98]] /\
  createLineReader [[97; 13]; [10; 98]] = createLineReader [[97; 10; 98]] /\
  createLineReader [[97; 13; 98]] = createLineReader [[97; 10; 98]].
Proof.
  split.
  - apply (proj1 terminators_equivalent
             [[120; 10; 97; 58; 13]; [10; 98]] [120; 10] [97; 58] [98]
             TermCRLF).
    + right. reflexivity.
    + repeat constructor.
    + reflexivity.
    + discriminate.
    + reflexivity.
  - destruct (proj2 terminators_equivalent [97] [98]
                [[97; 13]; [10; 98]] [[97; 10; 98]] [[97; 13; 98]]
                eq_refl eq_refl eq_refl eq_refl) as [H1 H2].
    split; [exact H1 | exact (H2 eq_refl)].
Defined.
